(** * The resilient request pipeline of the agri front end

    A shallow embedding of
    - [src/config.js]      ([APIConfig]: headers, authenticated request, token refresh),
    - [src/api-client.js]  ([APIClient]: retry, offline queue, queue replay),
    - [src/script.js]      (the two newline-delimited JSON stream loops),
    followed by the properties of the request pipeline that hold of this code. *)

From Stdlib Require Import String Ascii DecimalString.
From stdpp Require Import gmap strings list fin_maps.
From Equations Require Import Equations.

Set Warnings "-register-all".
Open Scope string_scope.

(* ===================================================================== *)
(** ** JavaScript strings *)
(* ===================================================================== *)

(** [hay.includes(needle)] *)
Fixpoint includes (hay needle : string) : bool :=
  if String.prefix needle hay then true
  else match hay with
       | EmptyString => false
       | String _ rest => includes rest needle
       end.

(** [s.split(sep)] for a one-character separator: never the empty list. *)
Fixpoint split_on (sep : ascii) (s : string) : list string :=
  match s with
  | EmptyString => [EmptyString]
  | String c rest =>
      if Ascii.eqb c sep then EmptyString :: split_on sep rest
      else match split_on sep rest with
           | [] => [String c EmptyString]
           | l :: ls => String c l :: ls
           end
  end.

Definition newline : ascii := "010"%char.

(** Decimal rendering of a number inside a template literal. *)
Definition dec (n : nat) : string := NilZero.string_of_uint (Nat.to_uint n).

(* ===================================================================== *)
(** ** JavaScript values, as produced by [JSON.parse] *)
(* ===================================================================== *)

(** A number is kept as the literal it was read from; what the engine
    makes of it (an IEEE double) is left to the engine, see [JSEngine]. *)
Inductive jsval : Type :=
| VUndef
| VNull
| VBool (b : bool)
| VNum (lit : string)
| VStr (s : string)
| VArr (items : list jsval)
| VObj (fields : list (string * jsval)).

(** An [Error] object: its constructor name and its message. *)
Record jserror := JsError { err_name : string; message : string }.

(** How an awaited call ends: with a value, or with a thrown error. *)
Inductive result (A : Type) : Type :=
| Ok (a : A)
| Thrown (e : jserror).
Arguments Ok {A} a.
Arguments Thrown {A} e.

(** The last binding of a key wins, as in an object literal read by
    [JSON.parse]. *)
Fixpoint assoc_last (k : string) (fields : list (string * jsval)) : option jsval :=
  match fields with
  | [] => None
  | (k', v) :: rest =>
      match assoc_last k rest with
      | Some v' => Some v'
      | None => if String.eqb k k' then Some v else None
      end
  end.

(** The JavaScript engine and browser built-ins the code calls. *)
Class JSEngine := {
  (** [JSON.parse(text)]; a SyntaxError is thrown on malformed text. *)
  JSON_parse : string -> result jsval;
  (** [JSON.stringify(v)] *)
  JSON_stringify : jsval -> string;
  (** truthiness of the number written [lit] *)
  num_truthy : string -> bool;
  (** [String(n)] of the number written [lit] *)
  num_to_string : string -> string;
  (** [v > 0] *)
  gt_zero : jsval -> bool;
  (** [s.trim()] *)
  str_trim : string -> string;
  (** [new TextDecoder().decode(bytes)] *)
  utf8_decode : list Byte.byte -> string;
  (** [a + b] when neither operand is a string, an array or an object *)
  num_add : jsval -> jsval -> jsval;
  (** the TypeError raised when property [k] of [v] cannot be read, or
      is called and is not a function *)
  type_error : jsval -> string -> jserror
}.

Section Values.
Context `{JSEngine}.

(** [v.k] for the data fields the pipeline reads ([error], [status],
    [access_token], ...): a TypeError on [null] and [undefined]; on any
    other value a missing field is [undefined]. *)
Definition get_prop (v : jsval) (k : string) : result jsval :=
  match v with
  | VUndef | VNull => Thrown (type_error v k)
  | VObj fields => Ok (default VUndef (assoc_last k fields))
  | _ => Ok VUndef
  end.

(** ToBoolean *)
Definition truthy (v : jsval) : bool :=
  match v with
  | VUndef | VNull => false
  | VBool b => b
  | VNum lit => num_truthy lit
  | VStr s => negb (String.eqb s "")
  | VArr _ | VObj _ => true
  end.

Definition join_with (sep : string) (parts : list string) : string :=
  match parts with
  | [] => ""
  | p :: ps => fold_left (fun acc q => acc ++ sep ++ q) ps p
  end.

(** ToString, as applied by [+=], template literals, [new Error(v)] and
    [localStorage.setItem]. *)
Fixpoint to_string (v : jsval) : string :=
  match v with
  | VUndef => "undefined"
  | VNull => "null"
  | VBool true => "true"
  | VBool false => "false"
  | VNum lit => num_to_string lit
  | VStr s => s
  | VArr items =>
      join_with ","
        (map (fun x => match x with
                       | VUndef | VNull => ""
                       | _ => to_string x
                       end) items)
  | VObj _ => "[object Object]"
  end.

(** [Array.prototype.join] *)
Definition join_items (sep : string) (items : list jsval) : string :=
  join_with sep
    (map (fun x => match x with
                   | VUndef | VNull => ""
                   | _ => to_string x
                   end) items).

(** [a + b] *)
Definition js_plus (a b : jsval) : jsval :=
  let stringy v := match v with
                   | VStr _ | VArr _ | VObj _ => true
                   | _ => false
                   end in
  if stringy a || stringy b then VStr (to_string a ++ to_string b)
  else num_add a b.

(** [v === 'text'] *)
Definition strict_eq_str (v : jsval) (text : string) : bool :=
  match v with
  | VStr s => String.eqb s text
  | _ => false
  end.
End Values.

(* ===================================================================== *)
(** ** The browser around the client *)
(* ===================================================================== *)

(** What [fetch] resolves to. *)
Record response := Response {
  status : nat;
  statusText : string;
  body : string
}.

(** [response.ok] *)
Definition ok (r : response) : bool :=
  ((200 <=? status r) && (status r <=? 299))%nat.

Inductive fetch_outcome : Type :=
| Rejected (e : jserror)
| Resolved (r : response).

(** The part of a run the client does not control.  The client is
    sequential, so each answer of the outside world is indexed by how many
    times the client has asked so far. *)
Class Environment := {
  (** [window.location.hostname] and [window.location.origin] *)
  hostname : string;
  origin : string;
  (** how the [k]-th [fetch] of the run ends *)
  net : nat -> fetch_outcome;
  (** [navigator.onLine] at its [k]-th read *)
  onLine : nat -> bool;
  (** [Date.now()] at its [k]-th call *)
  now : nat -> Z
}.

(** A [fetch] init object, and the [options] callers pass. *)
Abbreviation jsobj := (gmap string jsval).

(** One element of the offline queue: [{ endpoint, options, timestamp }]. *)
Record queue_entry := QueueEntry {
  endpoint : string;
  options : jsobj;
  timestamp : Z
}.

Inductive event : Type :=
| EvFetch (url : string) (config : jsobj)
| EvDelay (ms : nat)
| EvConsoleError (label : string) (e : jserror)
| EvConsoleLog (text : string)
| EvOnLine (b : bool)
| EvNow (t : Z)
| EvNavigate (href : string).

(** [localStorage] holds text.  The value under ['offline_queue'] is only
    ever written by [JSON.stringify] and read back by [JSON.parse]; it is
    kept as the array it denotes, in [stored_queue]. *)
Record world := World {
  localStorage : gmap string string;
  stored_queue : option (list queue_entry);
  (** [APIClient.offlineQueue] *)
  offlineQueue : list queue_entry;
  (** everything done so far, oldest first *)
  trace : list event
}.

Definition emit (e : event) (w : world) : world :=
  World (localStorage w) (stored_queue w) (offlineQueue w) (trace w ++ [e]).

Definition setItem (k v : string) (w : world) : world :=
  World (<[k := v]> (localStorage w)) (stored_queue w) (offlineQueue w) (trace w).

Definition is_fetch (e : event) : bool :=
  match e with EvFetch _ _ => true | _ => false end.
Definition is_onLine (e : event) : bool :=
  match e with EvOnLine _ => true | _ => false end.
Definition is_now (e : event) : bool :=
  match e with EvNow _ => true | _ => false end.

Definition count (p : event -> bool) (t : list event) : nat :=
  length (filter (fun e => p e = true) t).

Section Browser.
Context `{JSEngine} `{Environment}.

(** [await fetch(url, config)] *)
Definition fetch (url : string) (config : jsobj) (w : world)
  : fetch_outcome * world :=
  (net (count is_fetch (trace w)), emit (EvFetch url config) w).

(** [navigator.onLine] *)
Definition read_onLine (w : world) : bool * world :=
  let b := onLine (count is_onLine (trace w)) in (b, emit (EvOnLine b) w).

(** [Date.now()] *)
Definition Date_now (w : world) : Z * world :=
  let t := now (count is_now (trace w)) in (t, emit (EvNow t) w).
End Browser.

(* ===================================================================== *)
(** ** Asynchronous code: state passing with exceptions *)
(* ===================================================================== *)

Definition ST (S A : Type) : Type := S -> result A * S.

Definition ret {S A} (a : A) : ST S A := fun w => (Ok a, w).
Definition throw {S A} (e : jserror) : ST S A := fun w => (Thrown e, w).

Definition bind {S A B} (m : ST S A) (k : A -> ST S B) : ST S B :=
  fun w => match m w with
           | (Ok a, w') => k a w'
           | (Thrown e, w') => (Thrown e, w')
           end.

(** [try { m } catch (e) { handler e }]: what [m] did to the state before
    it threw stays done. *)
Definition try_catch {S A} (m : ST S A) (handler : jserror -> ST S A) : ST S A :=
  fun w => match m w with
           | (Ok a, w') => (Ok a, w')
           | (Thrown e, w') => handler e w'
           end.

(** An operation of the browser that cannot throw. *)
Definition lift {S A} (f : S -> A * S) : ST S A :=
  fun w => let (a, w') := f w in (Ok a, w').

Definition act {S} (f : S -> S) : ST S unit := fun w => (Ok tt, f w).

(** A pure computation that may throw. *)
Definition of_result {S A} (r : result A) : ST S A := fun w => (r, w).

(** The request pipeline runs over the [world]. *)
Abbreviation M := (ST world).

Notation "x <~ m ;; k" := (bind m (fun x => k))
  (at level 100, m at next level, right associativity).
Notation "m ;;; k" := (bind m (fun _ => k))
  (at level 100, right associativity).

(* ===================================================================== *)
(** ** [config.js]: class [APIConfig] *)
(* ===================================================================== *)

(** [s] without its first [n] characters. *)
Fixpoint string_drop (n : nat) (s : string) : string :=
  match n, s with
  | S n', String _ rest => string_drop n' rest
  | _, _ => s
  end.

(** [s.replace(pat, by)] with a string pattern: the first occurrence only. *)
Fixpoint replace_first (pat by_ s : string) : string :=
  if String.prefix pat s then by_ ++ string_drop (String.length pat) s
  else match s with
       | EmptyString => EmptyString
       | String c rest => String c (replace_first pat by_ rest)
       end.

Module APIConfig.
Section APIConfig.
Context `{JSEngine} `{Environment}.

(** The constructor: environment detection and the base URL. *)
Definition isDevelopment : bool :=
  String.eqb hostname "localhost" || String.eqb hostname "127.0.0.1".

Definition baseURL : string :=
  if isDevelopment then "http://localhost:8005"
  else replace_first ":8080" ":8005" origin.

Definition endpoints_auth_refresh : string := "/auth/refresh".
Definition endpoints_auth_login : string := "/token".
Definition endpoints_user_profile : string := "/users/me".

Definition getURL (endpoint : string) : string := baseURL ++ endpoint.

(** [getHeaders()]: the content type, and the bearer token when
    [localStorage.getItem('access_token')] is truthy. *)
Definition getHeaders (w : world) : list (string * jsval) :=
  let headers := [("Content-Type", VStr "application/json")] in
  match localStorage w !! "access_token" with
  | Some token =>
      if negb (String.eqb token "")
      then headers ++ [("Authorization", VStr ("Bearer " ++ token))]
      else headers
  | None => headers
  end.

(** The init object of the refresh call:
    [{ method: 'POST', headers: {...}, body: JSON.stringify({ refresh_token }) }] *)
Definition refresh_config (refreshToken : string) : jsobj :=
  list_to_map
    [("method", VStr "POST");
     ("headers", VObj [("Content-Type", VStr "application/json")]);
     ("body", VStr (JSON_stringify (VObj [("refresh_token", VStr refreshToken)])))].

(** [refreshToken()] *)
Definition refreshToken : M bool :=
  fun w =>
    match localStorage w !! "refresh_token" with
    | None => (Ok false, w)
    | Some refreshToken =>
        if String.eqb refreshToken "" then (Ok false, w)
        else
          try_catch
            (out <~ lift (fetch (getURL endpoints_auth_refresh)
                            (refresh_config refreshToken)) ;;
             match out with
             | Rejected e => throw e
             | Resolved response =>
                 if ok response then
                   data <~ of_result (JSON_parse (body response)) ;;
                   access_token <~ of_result (get_prop data "access_token") ;;
                   act (setItem "access_token" (to_string access_token)) ;;;
                   ret true
                 else ret false
             end)
            (fun error =>
               act (emit (EvConsoleError "Token refresh failed:" error)) ;;;
               ret false)
            w
    end.

(** [{ headers: this.getHeaders(), ...options }] *)
Definition make_config (options : jsobj) (w : world) : jsobj :=
  options ∪ {[ "headers" := VObj (getHeaders w) ]}.

(** [request(endpoint, options)]; [None] is the [undefined] returned
    after the redirect to the login page. *)
Definition request (endpoint : string) (options : jsobj) : M (option response) :=
  fun w =>
    let url := getURL endpoint in
    let config := make_config options w in
    (out <~ lift (fetch url config) ;;
     match out with
     | Rejected error =>
         act (emit (EvConsoleError "API Request failed:" error)) ;;;
         throw error
     | Resolved response =>
         if (status response =? 401)%nat then
           refreshed <~ refreshToken ;;
           if refreshed then
             (* [return fetch(url, config)] is not awaited inside the
                [try]: a rejection leaves [request] without passing
                through its [catch]. *)
             fun w' =>
               let config' := <[ "headers" := VObj (getHeaders w') ]> config in
               (retried <~ lift (fetch url config') ;;
                match retried with
                | Rejected e => throw e
                | Resolved r => ret (Some r)
                end) w'
           else
             act (emit (EvNavigate "/login")) ;;;
             ret None
         else ret (Some response)
     end) w.
End APIConfig.
End APIConfig.

(* ===================================================================== *)
(** ** [api-client.js]: class [APIClient] *)
(* ===================================================================== *)

Module APIClient.
Section APIClient.
Context `{JSEngine} `{Environment}.

(** The constructor. *)
Definition retryAttempts : nat := 3.
Definition retryDelay : nat := 1000.

(** [shouldRetry(error)] *)
Definition shouldRetry (error : jserror) : bool :=
  includes (message error) "fetch"
  || includes (message error) "5"
  || includes (message error) "timeout".

(** [delay(ms)] *)
Definition delay (ms : nat) : M unit := act (emit (EvDelay ms)).

(** [queueOfflineRequest(endpoint, options)]: push, then persist the
    whole in-memory queue. *)
Definition queueOfflineRequest (endpoint : string) (options : jsobj) : M unit :=
  fun w =>
    let (t, w1) := Date_now w in
    let queue := (offlineQueue w1 ++ [QueueEntry endpoint options t])%list in
    (Ok tt, World (localStorage w1) (Some queue) queue (trace w1)).

Definition http_error (r : response) : jserror :=
  JsError "Error" ("HTTP " ++ dec (status r) ++ ": " ++ statusText r).

Definition queued_error : jserror :=
  JsError "Error" "Request queued for when online".

(** The [try] block of [makeRequest]. *)
Definition makeRequest_try (endpoint : string) (options : jsobj) : M response :=
  response <~ APIConfig.request endpoint options ;;
  match response with
  | None => throw (type_error VUndef "ok")
  | Some response =>
      if negb (ok response) then throw (http_error response)
      else ret response
  end.

(** What the [catch] block does once it does not retry. *)
Definition stop_retrying (endpoint : string) (options : jsobj) (error : jserror)
  : M response :=
  online <~ lift read_onLine ;;
  if negb online then
    queueOfflineRequest endpoint options ;;;
    throw queued_error
  else throw error.

(** [makeRequest(endpoint, options, attempt)].  The recursion is on what
    is left of the attempts; the test
    [attempt < this.retryAttempts && this.shouldRetry(error)] is written
    as two nested tests so that the first one is at hand where the function
    calls itself ([makeRequest_unfold] below gives it back as one). *)
Equations? makeRequest (endpoint : string) (options : jsobj) (attempt : nat)
  : M response by wf (retryAttempts - attempt) lt :=
makeRequest endpoint options attempt :=
  try_catch (makeRequest_try endpoint options)
    (fun error =>
       act (emit (EvConsoleError
                    ("API request failed (attempt " ++ dec attempt ++ "):") error)) ;;;
       match decide (attempt < retryAttempts) with
       | left _ =>
           if shouldRetry error then
             act (emit (EvConsoleLog ("Retrying in " ++ dec retryDelay ++ "ms..."))) ;;;
             delay retryDelay ;;;
             makeRequest endpoint options (attempt + 1)
           else stop_retrying endpoint options error
       | right _ => stop_retrying endpoint options error
       end).
Proof. lia. Qed.

(** The body of [for (const request of queue)] in [processOfflineQueue]. *)
Definition replay_one (request : queue_entry) : M unit :=
  try_catch
    (makeRequest (endpoint request) (options request) 1 ;;;
     act (emit (EvConsoleLog ("Offline request processed: " ++ endpoint request))))
    (fun error =>
       act (emit (EvConsoleError "Failed to process offline request:" error))).

Fixpoint replay (queue : list queue_entry) : M unit :=
  match queue with
  | [] => ret tt
  | request :: rest => replay_one request ;;; replay rest
  end.

(** [processOfflineQueue()] *)
Definition processOfflineQueue : M unit :=
  fun w =>
    let queue := default [] (stored_queue w) in
    (replay queue ;;;
     act (fun w' => World (localStorage w') None [] (trace w'))) w.
(** *** The API methods *)

(** [await response.json()] *)
Definition response_json (response : response) : M jsval :=
  of_result (JSON_parse (body response)).

(** A [FormData] body, kept as the array of its [[name, value]] entries. *)
Definition form_data (entries : list (string * string)) : jsval :=
  VArr (map (fun entry => VArr [VStr (fst entry); VStr (snd entry)]) entries).

(** The init object of the login call:
    [{ method: 'POST', body: formData, headers: {} }] *)
Definition login_config (username password : string) : jsobj :=
  list_to_map
    [("method", VStr "POST");
     ("body", form_data [("username", username); ("password", password)]);
     ("headers", VObj [])].

(** [login(username, password)] *)
Definition login (username password : string) : M jsval :=
  response <~ makeRequest APIConfig.endpoints_auth_login
                (login_config username password) 1 ;;
  data <~ response_json response ;;
  access_token <~ of_result (get_prop data "access_token") ;;
  act (setItem "access_token" (to_string access_token)) ;;;
  refresh_token <~ of_result (get_prop data "refresh_token") ;;
  (if truthy refresh_token
   then act (setItem "refresh_token" (to_string refresh_token))
   else ret tt) ;;;
  ret data.

(** [getUserProfile()] *)
Definition getUserProfile : M jsval :=
  response <~ makeRequest APIConfig.endpoints_user_profile ∅ 1 ;;
  response_json response.
End APIClient.
End APIClient.

(* ===================================================================== *)
(** ** [script.js]: the two stream decoding loops *)
(* ===================================================================== *)

(** What a decoding loop does to the page. *)
Inductive ui_event : Type :=
| UiStatus (text : string)        (* statusDiv.innerHTML = spinner + text *)
| UiAnswer (answer : string) (sources : option string) (translate_to : list string)
                                  (* answerContainer.appendChild(answerDiv) *)
| UiStatusRemoved                 (* statusDiv.remove() *)
| UiShowError (text : string)     (* showError(text) *)
| UiHideTyping                    (* hideTypingIndicator() *)
| UiAddMessage (who content : string)
| UiUpdateMessage (content : string).

(** The completion event: the finished answer is put on the page. *)
Definition is_answer (e : ui_event) : bool :=
  match e with UiAnswer _ _ _ => true | _ => false end.

(** The state of one decoding loop: its local variables, the page, the
    console, and the texts handed to [JSON.parse] so far (oldest first). *)
Record decoder (L : Type) := Decoder {
  locals : L;
  ui : list ui_event;
  console : list (string * jserror);
  parsed : list string
}.
Arguments Decoder {L}.
Arguments locals {L}.
Arguments ui {L}.
Arguments console {L}.
Arguments parsed {L}.

Section Decoding.
Context `{JSEngine} {L : Type}.

Definition show (e : ui_event) : ST (decoder L) unit :=
  act (fun d => Decoder (locals d) (ui d ++ [e])%list (console d) (parsed d)).

Definition console_error (label : string) (e : jserror) : ST (decoder L) unit :=
  act (fun d => Decoder (locals d) (ui d) (console d ++ [(label, e)])%list (parsed d)).

Definition get_locals : ST (decoder L) L := fun d => (Ok (locals d), d).

Definition set_locals (f : L -> L) : ST (decoder L) unit :=
  act (fun d => Decoder (f (locals d)) (ui d) (console d) (parsed d)).

(** [JSON.parse(line)] *)
Definition parse_line (line : string) : ST (decoder L) jsval :=
  fun d => (JSON_parse line,
            Decoder (locals d) (ui d) (console d) (parsed d ++ [line])%list).

Definition field (data : jsval) (k : string) : ST (decoder L) jsval :=
  of_result (get_prop data k).

Definition when (b : bool) (m : ST (decoder L) unit) : ST (decoder L) unit :=
  if b then m else ret tt.

(** [chunk.split('\n').filter(line => line.trim())] *)
Definition lines_of (chunk : string) : list string :=
  filter (fun line => negb (String.eqb (str_trim line) "") = true)
         (split_on newline chunk).
End Decoding.

(** *** The query form ([setupBackendQueryForm]) *)

Module Query.
Section Query.
Context `{JSEngine}.

Record vars := Vars { fullAnswer : string; originalLang : jsval }.
Definition state := decoder vars.

Definition initial : state :=
  Decoder (Vars "" (VStr "en")) [UiStatus "Initializing..."] [] [].

(** [data.contexts && data.contexts.length > 0] *)
Definition has_contexts (contexts : jsval) : bool :=
  truthy contexts &&
  match contexts with
  | VArr items => negb (Nat.eqb (length items) 0)
  | VStr s => negb (Nat.eqb (String.length s) 0)
  | VObj fields => gt_zero (default VUndef (assoc_last "length" fields))
  | _ => false
  end.

(** [data.contexts.slice(0, 2).join('<br>')] *)
Definition first_contexts (contexts : jsval) : result string :=
  match contexts with
  | VArr items => Ok (join_items "<br>" (take 2 items))
  | VStr _ => Thrown (type_error contexts "join")
  | _ => Thrown (type_error contexts "slice")
  end.

(** The body of the [try] inside [for (const line of lines)], after
    [const data = JSON.parse(line)]. *)
Definition dispatch (data : jsval) : ST state unit :=
  error <~ field data "error" ;;
  if truthy error then throw (JsError "Error" (to_string error))
  else
    response_lang <~ field data "response_lang" ;;
    when (truthy response_lang)
      (set_locals (fun v => Vars (fullAnswer v) response_lang)) ;;;
    status <~ field data "status" ;;
    when (truthy status) (show (UiStatus (to_string status))) ;;;
    generated_answer_chunk <~ field data "generated_answer_chunk" ;;
    when (truthy generated_answer_chunk)
      (set_locals (fun v => Vars (fullAnswer v ++ to_string generated_answer_chunk)
                                 (originalLang v)) ;;;
       show (UiStatus "Generating answer...")) ;;;
    when (strict_eq_str status "complete")
      (generated_answer <~ field data "generated_answer" ;;
       contexts <~ field data "contexts" ;;
       sources <~ (if has_contexts contexts
                   then s <~ of_result (first_contexts contexts) ;; ret (Some s)
                   else ret None) ;;
       v <~ get_locals ;;
       show (UiAnswer (to_string generated_answer) sources
               (filter (fun targetLang => negb (strict_eq_str (originalLang v) targetLang) = true)
                       ["en"; "hi"; "te"])) ;;;
       show UiStatusRemoved).

Definition line_body (line : string) : ST state unit :=
  data <~ parse_line line ;;
  dispatch data.

(** One turn of the [for] loop: [try { ... } catch (parseError) { ...; continue; }] *)
Definition step (line : string) : ST state unit :=
  try_catch (line_body line)
    (fun parseError => console_error "Error parsing response chunk:" parseError).

(** [for (const line of lines) { ... }] *)
Fixpoint for_lines (lines : list string) : ST state unit :=
  match lines with
  | [] => ret tt
  | line :: rest => step line ;;; for_lines rest
  end.

(** [while (true) { read; if (done) break; decode; split; for ... }] over
    the chunks the reader delivers. *)
Fixpoint read_loop (chunks : list (list Byte.byte)) : ST state unit :=
  match chunks with
  | [] => ret tt
  | value :: rest =>
      for_lines (lines_of (utf8_decode value)) ;;;
      read_loop rest
  end.

(** The loop inside the handler's outer [try]/[catch]. *)
Definition handle_stream (chunks : list (list Byte.byte)) : ST state unit :=
  try_catch (read_loop chunks)
    (fun error => show (UiShowError ("Failed to get answer: " ++ message error))).
End Query.
End Query.

(** *** The chat window ([sendChatMessage]) *)

Module Chat.
Section Chat.
Context `{JSEngine}.

(** [botMessageElement] is [null] or an element of the page;
    [has_chat_messages] says whether [#chat-messages] exists. *)
Record vars := Vars {
  botResponse : jsval;
  botMessageElement : bool;
  has_chat_messages : bool
}.
Definition state := decoder vars.

Definition initial (has_chat_messages : bool) : state :=
  Decoder (Vars (VStr "") false has_chat_messages) [] [] [].

(** [addChatMessage(type, content)]: [false] is the [null] returned
    when the container is missing. *)
Definition addChatMessage (type content : string) : ST state bool :=
  v <~ get_locals ;;
  if has_chat_messages v
  then show (UiAddMessage type content) ;;; ret true
  else ret false.

(** [updateBotMessage(messageElement, content)] *)
Definition updateBotMessage (messageElement : bool) (content : string) : ST state unit :=
  if messageElement then show (UiUpdateMessage content)
  else throw (type_error VNull "querySelector").

(** The body of the [try] inside [for (const line of lines)], after
    [const data = JSON.parse(line)]; [true] when it ends in [break]. *)
Definition dispatch (data : jsval) : ST state bool :=
  response_chunk <~ field data "response_chunk" ;;
  if truthy response_chunk then
    show UiHideTyping ;;;
    v <~ get_locals ;;
    when (negb (botMessageElement v))
      (el <~ addChatMessage "bot" "" ;;
       set_locals (fun v => Vars (botResponse v) el (has_chat_messages v))) ;;;
    set_locals (fun v => Vars (js_plus (botResponse v) response_chunk)
                              (botMessageElement v) (has_chat_messages v)) ;;;
    v <~ get_locals ;;
    updateBotMessage (botMessageElement v) (to_string (botResponse v)) ;;;
    ret false
  else
    response <~ field data "response" ;;
    status <~ field data "status" ;;
    if truthy response && strict_eq_str status "complete" then
      show UiHideTyping ;;;
      v <~ get_locals ;;
      (if negb (botMessageElement v)
       then addChatMessage "bot" (to_string response) ;;; ret tt
       else updateBotMessage (botMessageElement v) (to_string response)) ;;;
      set_locals (fun v => Vars response (botMessageElement v) (has_chat_messages v)) ;;;
      ret true
    else
      error <~ field data "error" ;;
      if truthy error then
        show UiHideTyping ;;;
        addChatMessage "bot" ("Sorry, I encountered an error: " ++ to_string error) ;;;
        ret true
      else ret false.

Definition line_body (line : string) : ST state bool :=
  data <~ parse_line line ;;
  dispatch data.

(** One turn of the [for] loop: [try { ... } catch (parseError) { ... }];
    [true] when the turn ended in [break]. *)
Definition step (line : string) : ST state bool :=
  try_catch (line_body line)
    (fun parseError =>
       console_error "Error parsing response chunk:" parseError ;;;
       ret false).

(** [for (const line of lines) { ... break ... }] *)
Fixpoint for_lines (lines : list string) : ST state unit :=
  match lines with
  | [] => ret tt
  | line :: rest =>
      stop <~ step line ;;
      if stop then ret tt else for_lines rest
  end.

(** [while (true) { read; if (done) break; decode; split; for ... }]: the
    [break] of the [for] loop does not leave this one. *)
Fixpoint read_loop (chunks : list (list Byte.byte)) : ST state unit :=
  match chunks with
  | [] => ret tt
  | value :: rest =>
      for_lines (lines_of (utf8_decode value)) ;;;
      read_loop rest
  end.
End Chat.
End Chat.

(** *** The sync queue of the page ([AppState.offlineQueue]) *)

Module AppQueue.
Section AppQueue.
Context `{JSEngine}.

(** The part of [AppState] and of the page the sync pass works on.  The
    text under [STORAGE_KEYS.OFFLINE_QUEUE] is only written by
    [JSON.stringify]; it is kept as the array it denotes. *)
Record app := App {
  isOffline : bool;
  offlineQueue : list jsval;
  saved_queue : option (list jsval);
  (** [#sync-status .sync-text], when the element exists *)
  sync_text : option string;
  (** toasts shown by [showSuccess] *)
  successes : list string;
  (** lines of [console.log] *)
  console_lines : list string
}.

(** [saveOfflineQueue()] *)
Definition saveOfflineQueue : ST app unit :=
  act (fun a => App (isOffline a) (offlineQueue a) (Some (offlineQueue a))
                    (sync_text a) (successes a) (console_lines a)).

(** [updateSyncStatus()] *)
Definition updateSyncStatus : ST app unit :=
  act (fun a =>
         match sync_text a with
         | None => a
         | Some _ =>
             let text :=
               if isOffline a then "Offline - data will sync when connected"
               else if (0 <? length (offlineQueue a))%nat
                    then "Syncing " ++ dec (length (offlineQueue a)) ++ " items..."
                    else "All data synced" in
             App (isOffline a) (offlineQueue a) (saved_queue a)
                 (Some text) (successes a) (console_lines a)
         end).

(** [showSuccess(message)] *)
Definition showSuccess (message : string) : ST app unit :=
  act (fun a => App (isOffline a) (offlineQueue a) (saved_queue a)
                    (sync_text a) (successes a ++ [message])%list (console_lines a)).

(** [console.log(...)] *)
Definition console_log (text : string) : ST app unit :=
  act (fun a => App (isOffline a) (offlineQueue a) (saved_queue a)
                    (sync_text a) (successes a) (console_lines a ++ [text])%list).

(** [queue.filter((_, i) => i !== index)] *)
Fixpoint without_index {A} (index : nat) (queue : list A) : list A :=
  match queue, index with
  | [], _ => []
  | _ :: rest, O => rest
  | x :: rest, S index' => x :: without_index index' rest
  end.

(** The callback [processOfflineQueue] hands to [setTimeout] for the
    item at [index]. *)
Definition timer (item : jsval) (index : nat) : ST app unit :=
  type <~ of_result (get_prop item "type") ;;
  data <~ of_result (get_prop item "data") ;;
  id <~ of_result (get_prop data "id") ;;
  console_log ("Syncing: " ++ to_string type ++ " " ++ to_string id) ;;;
  act (fun a => App (isOffline a) (without_index index (offlineQueue a))
                    (saved_queue a) (sync_text a) (successes a) (console_lines a)) ;;;
  saveOfflineQueue ;;;
  updateSyncStatus ;;;
  fun a =>
    (if (length (offlineQueue a) =? 0)%nat
     then showSuccess "All data synced successfully!"
     else ret tt) a.

(** The timers go off in the order of their delays, [(index + 1) * 1000];
    an error thrown inside one ends that callback only. *)
Fixpoint fire (items : list jsval) (index : nat) (a : app) : app :=
  match items with
  | [] => a
  | item :: rest => fire rest (S index) (snd (timer item index a))
  end.

(** [processOfflineQueue()] of [script.js], run until its last timer has
    gone off, nothing else changing the queue in between. *)
Definition processOfflineQueue (a : app) : app :=
  if (length (offlineQueue a) =? 0)%nat then a
  else
    let a1 := snd (console_log ("Processing " ++ dec (length (offlineQueue a))
                                  ++ " offline items") a) in
    fire (offlineQueue a) 0 a1.
End AppQueue.
End AppQueue.

(* ===================================================================== *)
(** ** A reference engine, for running the code on examples *)
(* ===================================================================== *)

(** An engine that reads and writes JSON text.  Numbers stay the literals
    they were written as and are not interpreted beyond their sign and
    zero-ness; texts are byte strings.  It is used only to evaluate the
    code on concrete inputs: every general statement below holds of any
    engine. *)
Module Reference.

Definition dq : ascii := "034"%char.
Definition bs : ascii := "092"%char.

(** [quoted s] is [s] between double quotes. *)
Definition quoted (s : string) : string := String dq (s ++ String dq "").

Definition is_json_ws (c : ascii) : bool :=
  let n := nat_of_ascii c in
  (n =? 32)%nat || (n =? 9)%nat || (n =? 10)%nat || (n =? 13)%nat.

Definition is_js_ws (c : ascii) : bool :=
  let n := nat_of_ascii c in
  (n =? 32)%nat || ((9 <=? n) && (n <=? 13))%nat.

Definition is_digit (c : ascii) : bool :=
  let n := nat_of_ascii c in ((48 <=? n) && (n <=? 57))%nat.

Fixpoint skip (p : ascii -> bool) (s : string) : string :=
  match s with
  | String c rest => if p c then skip p rest else s
  | EmptyString => s
  end.

Fixpoint span (p : ascii -> bool) (s : string) : string * string :=
  match s with
  | String c rest =>
      if p c then let (a, b) := span p rest in (String c a, b)
      else (EmptyString, s)
  | EmptyString => (EmptyString, EmptyString)
  end.

Fixpoint string_rev_onto (s acc : string) : string :=
  match s with
  | EmptyString => acc
  | String c rest => string_rev_onto rest (String c acc)
  end.

Definition trim (s : string) : string :=
  string_rev_onto (skip is_js_ws (string_rev_onto (skip is_js_ws s) "")) "".

Definition hex_digit (c : ascii) : option nat :=
  let n := nat_of_ascii c in
  if ((48 <=? n) && (n <=? 57))%nat then Some (n - 48)
  else if ((97 <=? n) && (n <=? 102))%nat then Some (n - 87)
  else if ((65 <=? n) && (n <=? 70))%nat then Some (n - 55)
  else None.

(** UTF-8 bytes of a code unit below [0x10000]. *)
Definition utf8_of (u : nat) : string :=
  let ch n := String (ascii_of_nat n) "" in
  if (u <? 128)%nat then ch u
  else if (u <? 2048)%nat then ch (192 + u / 64) ++ ch (128 + u mod 64)
  else ch (224 + u / 4096) ++ ch (128 + (u / 64) mod 64) ++ ch (128 + u mod 64).

(** The characters of a string literal, after its opening quote. *)
Fixpoint string_body (s : string) : option (string * string) :=
  match s with
  | EmptyString => None
  | String c rest =>
      if Ascii.eqb c dq then Some (EmptyString, rest)
      else if Ascii.eqb c bs then
        match rest with
        | String e rest' =>
            let plain (x : nat) :=
              match string_body rest' with
              | Some (t, r) => Some (String (ascii_of_nat x) t, r)
              | None => None
              end in
            if Ascii.eqb e dq then plain 34
            else if Ascii.eqb e bs then plain 92
            else if Ascii.eqb e "/" then plain 47
            else if Ascii.eqb e "b" then plain 8
            else if Ascii.eqb e "f" then plain 12
            else if Ascii.eqb e "n" then plain 10
            else if Ascii.eqb e "r" then plain 13
            else if Ascii.eqb e "t" then plain 9
            else if Ascii.eqb e "u" then
              match rest' with
              | String h1 (String h2 (String h3 (String h4 rest''))) =>
                  match hex_digit h1, hex_digit h2, hex_digit h3, hex_digit h4 with
                  | Some a, Some b, Some c', Some d =>
                      match string_body rest'' with
                      | Some (t, r) =>
                          Some (utf8_of (a * 4096 + b * 256 + c' * 16 + d) ++ t, r)
                      | None => None
                      end
                  | _, _, _, _ => None
                  end
              | _ => None
              end
            else None
        | EmptyString => None
        end
      else if (nat_of_ascii c <? 32)%nat then None
      else match string_body rest with
           | Some (t, r) => Some (String c t, r)
           | None => None
           end
  end.

(** A number literal: [-? int frac? exp?]. *)
Definition number (s : string) : option (string * string) :=
  let (sign, s1) := match s with
                    | String "-" r => ("-", r)
                    | _ => ("", s)
                    end in
  let (int, s2) := span is_digit s1 in
  let int_ok := match int with
                | EmptyString => false
                | String "0" (String _ _) => false
                | _ => true
                end in
  if negb int_ok then None
  else
    let frac :=
      match s2 with
      | String "." r =>
          let (ds, r') := span is_digit r in
          match ds with
          | EmptyString => None
          | _ => Some ("." ++ ds, r')
          end
      | _ => Some ("", s2)
      end in
    match frac with
    | None => None
    | Some (f, s3) =>
        let exp_of (mark : string) (r : string) :=
          let (sg, r1) := match r with
                          | String "+" r' => ("+", r')
                          | String "-" r' => ("-", r')
                          | _ => ("", r)
                          end in
          let (ds, r2) := span is_digit r1 in
          match ds with
          | EmptyString => None
          | _ => Some (mark ++ sg ++ ds, r2)
          end in
        let exp :=
          match s3 with
          | String "e" r => exp_of "e" r
          | String "E" r => exp_of "E" r
          | _ => Some ("", s3)
          end in
        match exp with
        | None => None
        | Some (e, s4) => Some (sign ++ int ++ f ++ e, s4)
        end
    end.

(** One JSON value and the text after it. *)
Fixpoint value (fuel : nat) (s : string) : option (jsval * string) :=
  match fuel with
  | O => None
  | S fuel' =>
      match skip is_json_ws s with
      | String "{" r =>
          match skip is_json_ws r with
          | String "}" r' => Some (VObj [], r')
          | _ => match members fuel' r with
                 | Some (fs, r') => Some (VObj fs, r')
                 | None => None
                 end
          end
      | String "[" r =>
          match skip is_json_ws r with
          | String "]" r' => Some (VArr [], r')
          | _ => match elements fuel' r with
                 | Some (vs, r') => Some (VArr vs, r')
                 | None => None
                 end
          end
      | String c r as s' =>
          if Ascii.eqb c dq then
            match string_body r with
            | Some (t, r') => Some (VStr t, r')
            | None => None
            end
          else if String.prefix "true" s' then Some (VBool true, string_drop 4 s')
          else if String.prefix "false" s' then Some (VBool false, string_drop 5 s')
          else if String.prefix "null" s' then Some (VNull, string_drop 4 s')
          else match number s' with
               | Some (lit, r') => Some (VNum lit, r')
               | None => None
               end
      | EmptyString => None
      end
  end
with elements (fuel : nat) (s : string) : option (list jsval * string) :=
  match fuel with
  | O => None
  | S fuel' =>
      match value fuel' s with
      | Some (v, r) =>
          match skip is_json_ws r with
          | String "," r' =>
              match elements fuel' r' with
              | Some (vs, r'') => Some (v :: vs, r'')
              | None => None
              end
          | String "]" r' => Some ([v], r')
          | _ => None
          end
      | None => None
      end
  end
with members (fuel : nat) (s : string) : option (list (string * jsval) * string) :=
  match fuel with
  | O => None
  | S fuel' =>
      match skip is_json_ws s with
      | String c r =>
          if Ascii.eqb c dq then
            match string_body r with
            | Some (k, r1) =>
                match skip is_json_ws r1 with
                | String ":" r2 =>
                    match value fuel' r2 with
                    | Some (v, r3) =>
                        match skip is_json_ws r3 with
                        | String "," r4 =>
                            match members fuel' r4 with
                            | Some (fs, r5) => Some ((k, v) :: fs, r5)
                            | None => None
                            end
                        | String "}" r4 => Some ([(k, v)], r4)
                        | _ => None
                        end
                    | None => None
                    end
                | _ => None
                end
            | None => None
            end
          else None
      | EmptyString => None
      end
  end.

Definition syntax_error : jserror :=
  JsError "SyntaxError" "Unexpected token in JSON".

Definition parse (text : string) : result jsval :=
  match value (2 * String.length text + 2) text with
  | Some (v, r) =>
      match skip is_json_ws r with
      | EmptyString => Ok v
      | _ => Thrown syntax_error
      end
  | None => Thrown syntax_error
  end.
(** [JSON.stringify] *)
Fixpoint escape (s : string) : string :=
  match s with
  | EmptyString => EmptyString
  | String c rest =>
      let n := nat_of_ascii c in
      let two (e : ascii) := String bs (String e (escape rest)) in
      if (n =? 34)%nat then two dq
      else if (n =? 92)%nat then two bs
      else if (n =? 8)%nat then two "b"%char
      else if (n =? 12)%nat then two "f"%char
      else if (n =? 10)%nat then two "n"%char
      else if (n =? 13)%nat then two "r"%char
      else if (n =? 9)%nat then two "t"%char
      else if (n <? 32)%nat then
        let hex d := ascii_of_nat (if (d <? 10)%nat then 48 + d else 87 + d) in
        String bs (String "u"%char (String "0"%char (String "0"%char
          (String (hex (n / 16)) (String (hex (n mod 16)) (escape rest))))))
      else String c (escape rest)
  end.

Fixpoint stringify (v : jsval) : string :=
  match v with
  | VUndef | VNull => "null"
  | VBool true => "true"
  | VBool false => "false"
  | VNum lit => lit
  | VStr s => quoted (escape s)
  | VArr items =>
      "[" ++ (fix go (l : list jsval) : string :=
                match l with
                | [] => ""
                | [x] => stringify x
                | x :: rest => stringify x ++ "," ++ go rest
                end) items ++ "]"
  | VObj fields =>
      "{" ++ (fix go (l : list (string * jsval)) (first : bool) : string :=
                match l with
                | [] => ""
                | (_, VUndef) :: rest => go rest first
                | (k, x) :: rest =>
                    (if first then "" else ",")
                    ++ quoted (escape k) ++ ":" ++ stringify x ++ go rest false
                end) fields true ++ "}"
  end.

(** The mantissa of the literal has a digit other than zero. *)
Fixpoint nonzero_mantissa (lit : string) : bool :=
  match lit with
  | EmptyString => false
  | String c rest =>
      if Ascii.eqb c "e" || Ascii.eqb c "E" then false
      else if is_digit c && negb (Ascii.eqb c "0") then true
      else nonzero_mantissa rest
  end.

Definition to_int (v : jsval) : option Z :=
  match v with
  | VNum lit => Z.of_int <$> NilZero.int_of_string lit
  | VBool true => Some 1%Z
  | VBool false | VNull => Some 0%Z
  | _ => None
  end.

Definition add (a b : jsval) : jsval :=
  match to_int a, to_int b with
  | Some x, Some y => VNum (NilZero.string_of_int (Z.to_int (x + y)))
  | _, _ => VNum "NaN"
  end.

Definition positive (v : jsval) : bool :=
  match v with
  | VNum lit => negb (String.prefix "-" lit) && nonzero_mantissa lit
  | VBool b => b
  | _ => false
  end.

Definition describe (v : jsval) : string :=
  match v with
  | VUndef => "undefined"
  | VNull => "null"
  | _ => "value"
  end.

Definition engine : JSEngine := {|
  JSON_parse := parse;
  JSON_stringify := stringify;
  num_truthy := nonzero_mantissa;
  num_to_string := fun lit => lit;
  gt_zero := positive;
  str_trim := trim;
  utf8_decode := string_of_list_byte;
  num_add := add;
  type_error := fun v k =>
    JsError "TypeError"
      ("Cannot read properties of " ++ describe v ++ " (reading '" ++ k ++ "')")
|}.

(** The bytes of a text. *)
Definition bytes (text : string) : list Byte.byte := list_byte_of_string text.

(** [{ k : v }] as JSON text, for string fields. *)
Definition pair_text (k v : string) : string := quoted k ++ ":" ++ quoted v.
Definition envelope (k v : string) : string := "{" ++ pair_text k v ++ "}".
Definition line (text : string) : string := text ++ String newline "".

(** A browser whose [fetch] calls end as listed, one after the other
    (and fail like an unreachable network after that), with a fixed
    [navigator.onLine] and a clock that ticks once per reading. *)
Definition failed_to_fetch : jserror := JsError "TypeError" "Failed to fetch".

Definition browser (outcomes : list fetch_outcome) (online : bool) : Environment := {|
  hostname := "localhost";
  origin := "http://localhost:8080";
  net := fun k => nth k outcomes (Rejected failed_to_fetch);
  onLine := fun _ => online;
  now := fun k => (1700000000000 + Z.of_nat k)%Z
|}.

Definition fresh (storage : gmap string string) : world :=
  World storage None [] [].
End Reference.

(* ===================================================================== *)
(** * The vocabulary of the properties *)
(* ===================================================================== *)

(** ** Traces *)

(** One of the two lines [processOfflineQueue] logs per entry. *)
Definition is_replay_mark (e : event) : bool :=
  match e with
  | EvConsoleLog text => String.prefix "Offline request processed: " text
  | EvConsoleError label _ => String.eqb label "Failed to process offline request:"
  | _ => false
  end.

(** An event of a single attempt: not a reading of [navigator.onLine] or
    of the clock, and not one of those two lines. *)
Definition quiet (e : event) : bool :=
  negb (is_onLine e) && negb (is_now e) && negb (is_replay_mark e).

(** [w'] comes after [w] by quiet events only, the queue untouched. *)
Definition quietly (w w' : world) : Prop :=
  offlineQueue w' = offlineQueue w ∧
  stored_queue w' = stored_queue w ∧
  ∃ evs, trace w' = (trace w ++ evs)%list ∧ forallb quiet evs = true.

(** ** Requests *)

Section ConfigVocabulary.
Context `{JSEngine} `{Environment}.
Import APIConfig.

(** [cfg] carries the header [name: value]. *)
Definition carries (cfg : jsobj) (name value : string) : Prop :=
  ∃ headers, cfg !! "headers" = Some (VObj headers) ∧
             assoc_last name headers = Some (VStr value).

(** What a failed refresh leaves in the trace: nothing (no refresh
    token), the refresh call alone (answered, but not in the success
    range), or the refresh call and its logged rejection. *)
Definition refresh_events (evs : list event) : Prop :=
  evs = [] ∨
  ∃ token,
    evs = [EvFetch (getURL endpoints_auth_refresh) (refresh_config token)] ∨
    ∃ e, evs = [EvFetch (getURL endpoints_auth_refresh) (refresh_config token);
                EvConsoleError "Token refresh failed:" e].

(** The tokens are gone from the store. *)
Definition tokens_discarded (w : world) : Prop :=
  localStorage w !! "access_token" = None ∧
  localStorage w !! "refresh_token" = None.
End ConfigVocabulary.

Section ClientVocabulary.
Context `{JSEngine} `{Environment}.
Import APIConfig APIClient.

(** The world after the [catch] block has logged a failed attempt. *)
Definition logged (attempt : nat) (error : jserror) (w : world) : world :=
  emit (EvConsoleError ("API request failed (attempt " ++ dec attempt ++ "):") error) w.

(** The world after it has announced and sat out the retry delay. *)
Definition waited (w : world) : world :=
  emit (EvDelay retryDelay)
    (emit (EvConsoleLog ("Retrying in " ++ dec retryDelay ++ "ms...")) w).

(** The world after a request has been put on the queue at time [t]. *)
Definition enqueued (endpoint : string) (options : jsobj) (t : Z) (w : world) : world :=
  let queue := (offlineQueue w ++ [QueueEntry endpoint options t])%list in
  World (localStorage w) (Some queue) queue (trace w ++ [EvNow t])%list.






(** The queue as [processOfflineQueue] reads it from the store. *)
Definition persisted_queue (w : world) : list queue_entry :=
  default [] (stored_queue w).
End ClientVocabulary.

(** ** Pages *)

Section PageVocabulary.
Context `{JSEngine} {L : Type}.
Implicit Types d : decoder L.

(** Two decoder states show the same page and hold the same variables;
    they may differ in what was logged to the console and in the record
    of parsed texts. *)
Definition same_page d1 d2 : Prop :=
  locals d1 = locals d2 ∧ ui d1 = ui d2.

Definition same_outcome {A} (x y : result A * decoder L) : Prop :=
  fst x = fst y ∧ same_page (snd x) (snd y).

(** [m] never looks at the console or at the record of parsed texts. *)
Definition respects {A} (m : ST (decoder L) A) : Prop :=
  ∀ d1 d2, same_page d1 d2 → same_outcome (m d1) (m d2).

(** [m] hands nothing to [JSON.parse]. *)
Definition parses_nothing {A} (m : ST (decoder L) A) : Prop :=
  ∀ d, parsed (snd (m d)) = parsed d.
End PageVocabulary.

(** ** Counting what a call does *)

Definition is_delay (e : event) : bool :=
  match e with EvDelay _ => true | _ => false end.

(** A delay of any length other than [retryDelay]. *)
Definition is_odd_delay (e : event) : bool :=
  match e with
  | EvDelay ms => negb (ms =? APIClient.retryDelay)%nat
  | _ => false
  end.

Definition is_navigate (e : event) : bool :=
  match e with EvNavigate _ => true | _ => false end.

(** [request] answered [undefined]. *)
Definition is_undefined (r : result (option response)) : bool :=
  match r with Ok None => true | _ => false end.

(** [w'] comes after [w]: nothing of the trace is ever taken back. *)
Definition extends (w w' : world) : Prop :=
  ∃ evs, trace w' = (trace w ++ evs)%list.

(** The store of [w'] is that of [w] but for the access token. *)
Definition same_but_access_token (w w' : world) : Prop :=
  ∀ k, k ≠ "access_token" → localStorage w' !! k = localStorage w !! k.

(** ** Queueing and replaying *)

Section QueueVocabulary.
Context `{JSEngine} `{Environment}.
Import APIConfig APIClient.




(** [call] is a network call for [entry]: to its endpoint, with its
    options (and its own headers, if it has any). *)
Definition call_for (entry : queue_entry) (call : event) : Prop :=
  ∃ config,
    call = EvFetch (getURL (endpoint entry)) config ∧
    (∀ k, k ≠ "headers" → config !! k = options entry !! k) ∧
    (∀ own, options entry !! "headers" = Some own → config !! "headers" = Some own).
End QueueVocabulary.

(** ** Signing in *)

Section LoginVocabulary.
Context `{JSEngine} `{Environment}.
Import APIConfig APIClient.

(** The world after a login whose only call was answered with an object
    holding these two tokens. *)
Definition signed (username password : string) (access refresh : jsval) (w : world) : world :=
  let w1 := emit (EvFetch (getURL endpoints_auth_login) (login_config username password)) w in
  let w2 := setItem "access_token" (to_string access) w1 in
  if truthy refresh then setItem "refresh_token" (to_string refresh) w2 else w2.

(** The headers a signed-in call carries. *)
Definition bearer_headers (token : string) : jsval :=
  VObj [("Content-Type", VStr "application/json");
        ("Authorization", VStr ("Bearer " ++ token))].
End LoginVocabulary.

(** ** The answer under construction *)

(** [c] occurs in [s]. *)
Fixpoint mentions (c : ascii) (s : string) : bool :=
  match s with
  | EmptyString => false
  | String c' rest => Ascii.eqb c' c || mentions c rest
  end.

Section AnswerVocabulary.
Context `{JSEngine}.

(** [m] only ever appends to [fullAnswer]. *)
Definition appends {A} (m : ST Query.state A) : Prop :=
  ∀ d, ∃ more,
    Query.fullAnswer (locals (snd (m d))) = Query.fullAnswer (locals d) ++ more.

(** [line] is an envelope that brings the piece [text] of the answer:
    there is no error in it, and its status, if it has one, is not the
    completion. *)
Definition brings (line text : string) : Prop :=
  ∃ data error status,
    JSON_parse line = Ok data ∧
    get_prop data "error" = Ok error ∧ truthy error = false ∧
    get_prop data "status" = Ok status ∧ strict_eq_str status "complete" = false ∧
    get_prop data "generated_answer_chunk" = Ok (VStr text).

(** A text worth parsing: on one line, and not blank. *)
Definition one_line (text : string) : Prop :=
  mentions newline text = false ∧ str_trim text ≠ "".
End AnswerVocabulary.

(** ** The page's sync queue *)

(** The items at the second, fourth, ... place. *)
Fixpoint every_second {A} (queue : list A) : list A :=
  match queue with
  | _ :: kept :: rest => kept :: every_second rest
  | _ => []
  end.

Section SyncVocabulary.
Context `{JSEngine}.

(** An item as [saveDetectionToHistory] queues them: it has a [data]
    whose fields can be read. *)
Definition syncable (item : jsval) : Prop :=
  ∃ type data id,
    get_prop item "type" = Ok type ∧
    get_prop item "data" = Ok data ∧
    get_prop data "id" = Ok id.
End SyncVocabulary.

(** ** Pieces among malformed lines *)

(** The pieces put end to end. *)
Definition joined (texts : list string) : string := foldr String.append "" texts.

(** What the query form shows while these pieces arrive. *)
Definition generating (texts : list string) : list ui_event :=
  map (fun _ => UiStatus "Generating answer...") texts.

(** What the chat window shows while these pieces arrive, the reply
    being [so_far] before them: the typing indicator is hidden, the
    bot's message is added if it is not there yet ([element]), and its
    text becomes the reply so far. *)
Fixpoint typed (element : bool) (so_far : string) (texts : list string) : list ui_event :=
  match texts with
  | [] => []
  | text :: rest =>
      ((UiHideTyping :: (if element then [] else [UiAddMessage "bot" ""])) ++
       UiUpdateMessage (so_far ++ text) :: typed true (so_far ++ text) rest)%list
  end.

Section PieceVocabulary.
Context `{JSEngine}.

(** [line] is an envelope of the query stream that holds the piece
    [text] of the answer, and no error, language or status. *)
Definition answer_piece (line text : string) : Prop :=
  ∃ data error lang status,
    JSON_parse line = Ok data ∧
    get_prop data "error" = Ok error ∧ truthy error = false ∧
    get_prop data "response_lang" = Ok lang ∧ truthy lang = false ∧
    get_prop data "status" = Ok status ∧ truthy status = false ∧
    get_prop data "generated_answer_chunk" = Ok (VStr text) ∧ text ≠ "".

(** [line] is an envelope of the chat stream that holds the piece
    [text] of the reply. *)
Definition reply_piece (line text : string) : Prop :=
  ∃ data, JSON_parse line = Ok data ∧
          get_prop data "response_chunk" = Ok (VStr text) ∧ text ≠ "".
End PieceVocabulary.

(** ** Inputs of the examples *)

Section ExampleInputs.
Import APIConfig APIClient Reference.
#[local] Existing Instance engine.

Definition unauthorized : response := Response 401 "Unauthorized" "".

Definition bad_request : response := Response 400 "Bad Request" "".

Definition token_body : response :=
  Response 200 "OK" ("{" ++ pair_text "access_token" "new" ++ "}").

Definition both_tokens : gmap string string :=
  {[ "access_token" := "old"; "refresh_token" := "stale" ]}.

(** A page served from the development host, with both tokens stored,
    whose calls are answered as listed. *)
Definition answers (outcomes : list fetch_outcome) : Environment :=
  browser outcomes true.

Definition signed_in : world := fresh both_tokens.

(** The options [APIClient.login] passes: its own, empty, [headers]. *)
Definition login_options : jsobj :=
  {[ "method" := VStr "POST"; "headers" := VObj [] ]}.

Definition unavailable : response := Response 503 "Service Unavailable" "".

Definition bad_gateway : response := Response 502 "Bad Gateway" "".

Definition fine : response := Response 200 "OK" "".

Definition not_found : response := Response 404 "Not Found" "".

Definition method_not_allowed : response := Response 405 "Method Not Allowed" "".



(** Two bad answers, then a good one. *)
Definition recovering : Environment :=
  browser [Resolved unavailable; Resolved bad_gateway; Resolved fine] true.






(** [{"response_chunk":] *)
Definition cut_short : string := "{" ++ quoted "response_chunk" ++ ":".

Definition hello : string := envelope "response_chunk" "Hello ".

Definition world_ : string := envelope "response_chunk" "world".

Definition with_bad_line : list Byte.byte :=
  bytes (line hello ++ line cut_short ++ line world_).

Definition without_bad_line : list Byte.byte :=
  bytes (line hello ++ line world_).
End ExampleInputs.

(** ** More inputs of the examples *)

Section MoreInputs.
Import APIConfig APIClient Reference.

(** A page served in production, on the default port. *)
Definition production : Environment := {|
  hostname := "farm.example";
  origin := "https://farm.example";
  net := fun _ => Rejected failed_to_fetch;
  onLine := fun _ => true;
  now := fun k => Z.of_nat k
|}.
End MoreInputs.

Section LoginInputs.
Import APIConfig APIClient Reference.

(** The answer of the token endpoint: both tokens. *)
Definition tokens_body : response :=
  Response 200 "OK"
    ("{" ++ pair_text "access_token" "abc" ++ "," ++ pair_text "refresh_token" "xyz" ++ "}").

(** An answer in the success range that names no token. *)
Definition detail_body : response :=
  Response 200 "OK" (envelope "detail" "welcome").

Definition profile_body : response :=
  Response 200 "OK" (envelope "username" "ravi").
End LoginInputs.

Section StreamInputs.
Import Reference.

Definition piece_hello : string := envelope "generated_answer_chunk" "Hello ".

Definition piece_world : string := envelope "generated_answer_chunk" "world".

(** Both pieces in one chunk, and one chunk for each. *)
Definition pieces_together : list (list Byte.byte) :=
  [bytes (line piece_hello ++ line piece_world)].

Definition pieces_apart : list (list Byte.byte) :=
  [bytes (line piece_hello); bytes (line piece_world)].

(** [{"response":"Done","status":"complete"}] *)
Definition completion : string :=
  "{" ++ pair_text "response" "Done" ++ "," ++ pair_text "status" "complete" ++ "}".
End StreamInputs.

Section SyncInputs.

Definition detection (id : string) : jsval :=
  VObj [("type", VStr "detection"); ("data", VObj [("id", VStr id)])].

(** Four detections wait to be synced; the page shows the sync status. *)
Definition four_waiting : AppQueue.app :=
  AppQueue.App false [detection "a"; detection "b"; detection "c"; detection "d"]
    None (Some "") [] [].
End SyncInputs.

Section PieceInputs.
Import Reference.

(** Two pieces of an answer with a cut envelope between them, and the
    same without it. *)
Definition answer_with_bad_line : list Byte.byte :=
  bytes (line piece_hello ++ line cut_short ++ line piece_world).

Definition answer_without_bad_line : list Byte.byte :=
  bytes (line piece_hello ++ line piece_world).
End PieceInputs.

(* ===================================================================== *)
(** * Properties *)
(* ===================================================================== *)

(** ** Traces *)

Lemma count_app p (t1 t2 : list event) : count p (t1 ++ t2) = count p t1 + count p t2.
Proof. unfold count. by rewrite filter_app, length_app. Qed.

Lemma trace_emit e w : trace (emit e w) = (trace w ++ [e])%list.
Proof. reflexivity. Qed.

Lemma trace_setItem k v w : trace (setItem k v w) = trace w.
Proof. reflexivity. Qed.

Lemma count_emit p e w :
  count p (trace (emit e w)) = count p (trace w) + (if p e then 1 else 0).
Proof.
  unfold emit; simpl. rewrite count_app. f_equal.
  unfold count. rewrite filter_cons, filter_nil. by destruct (p e).
Qed.

(** ** Substrings *)

Lemma string_app_nil_r (s : string) : s ++ "" = s.
Proof.
  induction s as [| c s IH]; [done |].
  change (String c s ++ "") with (String c (s ++ "")). by rewrite IH.
Qed.

Lemma string_app_assoc (s1 s2 s3 : string) : (s1 ++ s2) ++ s3 = s1 ++ s2 ++ s3.
Proof.
  induction s1 as [| c s1 IH]; [done |].
  change (String c s1 ++ s2) with (String c (s1 ++ s2)).
  change (String c (s1 ++ s2) ++ s3) with (String c ((s1 ++ s2) ++ s3)).
  change (String c s1 ++ s2 ++ s3) with (String c (s1 ++ s2 ++ s3)).
  by rewrite IH.
Qed.


Lemma includes_prefix hay needle :
  String.prefix needle hay = true → includes hay needle = true.
Proof. intros Hp. destruct hay; simpl in *; by rewrite Hp. Qed.

Lemma includes_cons c hay needle :
  includes hay needle = true → includes (String c hay) needle = true.
Proof. intros Hi. cbn [includes]. rewrite Hi. by destruct (String.prefix _ _). Qed.

Lemma includes_after pre hay needle :
  includes hay needle = true → includes (pre ++ hay) needle = true.
Proof.
  intros Hi. induction pre as [| c pre IH]; [done |].
  change (String c pre ++ hay) with (String c (pre ++ hay)).
  by apply includes_cons.
Qed.

Lemma quietly_refl w : quietly w w.
Proof. repeat split. exists []. by rewrite app_nil_r. Qed.

Lemma quietly_trans w1 w2 w3 : quietly w1 w2 → quietly w2 w3 → quietly w1 w3.
Proof.
  intros (Hq & Hs & evs & Ht & Hf) (Hq' & Hs' & evs' & Ht' & Hf').
  repeat split; [congruence | congruence |].
  exists (evs ++ evs')%list. split.
  - by rewrite Ht', Ht, app_assoc.
  - by rewrite forallb_app, Hf, Hf'.
Qed.

Lemma quietly_emit e w : quiet e = true → quietly w (emit e w).
Proof. intros He. repeat split. exists [e]. simpl. by rewrite He. Qed.

Lemma quietly_setItem k v w : quietly w (setItem k v w).
Proof. repeat split. exists []. simpl. by rewrite app_nil_r. Qed.

Lemma quietly_count_onLine w w' :
  quietly w w' → count is_onLine (trace w') = count is_onLine (trace w).
Proof.
  intros (_ & _ & evs & -> & Hf). rewrite count_app.
  assert (count is_onLine evs = 0) as ->; [| lia].
  induction evs as [| e evs IH]; [done |].
  simpl in Hf. apply andb_prop in Hf as [He Hf].
  unfold count in *. rewrite filter_cons.
  unfold quiet in He. destruct (is_onLine e); [done |].
  rewrite decide_False by done. by apply IH.
Qed.

Lemma quietly_count_now w w' :
  quietly w w' → count is_now (trace w') = count is_now (trace w).
Proof.
  intros (_ & _ & evs & -> & Hf). rewrite count_app.
  assert (count is_now evs = 0) as ->; [| lia].
  induction evs as [| e evs IH]; [done |].
  simpl in Hf. apply andb_prop in Hf as [He Hf].
  unfold count in *. rewrite filter_cons.
  unfold quiet in He. destruct (is_now e); [by destruct (is_onLine e) |].
  rewrite decide_False by done. by apply IH.
Qed.

Create HintDb quiet.
#[export] Hint Resolve quietly_refl quietly_emit quietly_setItem : quiet.

(** Running the monad's combinators. *)
Ltac run :=
  cbv [bind try_catch lift act ret throw of_result when] in *.

(** ** [APIConfig] *)

Section ConfigFacts.
Context `{JSEngine} `{Environment}.
Import APIConfig.

Lemma refreshToken_absent w :
  localStorage w !! "refresh_token" = None ∨
  localStorage w !! "refresh_token" = Some "" →
  refreshToken w = (Ok false, w).
Proof. unfold refreshToken. by intros [-> | ->]. Qed.

Lemma refreshToken_call w token :
  localStorage w !! "refresh_token" = Some token → token ≠ "" →
  refreshToken w =
  let w1 := emit (EvFetch (getURL endpoints_auth_refresh) (refresh_config token)) w in
  match net (count is_fetch (trace w)) with
  | Rejected e => (Ok false, emit (EvConsoleError "Token refresh failed:" e) w1)
  | Resolved response =>
      if ok response then
        match JSON_parse (body response) with
        | Thrown e => (Ok false, emit (EvConsoleError "Token refresh failed:" e) w1)
        | Ok data =>
            match get_prop data "access_token" with
            | Thrown e => (Ok false, emit (EvConsoleError "Token refresh failed:" e) w1)
            | Ok access_token =>
                (Ok true, setItem "access_token" (to_string access_token) w1)
            end
        end
      else (Ok false, w1)
  end.
Proof.
  intros Htok Hne. unfold refreshToken. rewrite Htok.
  apply String.eqb_neq in Hne. rewrite Hne.
  run. unfold fetch.
  destruct (net _) as [e | response]; [done |].
  destruct (ok response); [| done].
  destruct (JSON_parse _) as [data | e]; [| done].
  by destruct (get_prop _ _).
Qed.

(** [refreshToken] never throws, leaves the queue alone, and changes the
    store only when it answers [true]. *)
Lemma refreshToken_spec w :
  ∃ b w', refreshToken w = (Ok b, w') ∧ quietly w w' ∧
          (b = false → localStorage w' = localStorage w).
Proof.
  destruct (localStorage w !! "refresh_token") as [token |] eqn:Htok.
  2: { exists false, w. rewrite refreshToken_absent by auto. auto with quiet. }
  destruct (decide (token = "")) as [-> | Hne].
  { exists false, w. rewrite refreshToken_absent by auto. auto with quiet. }
  rewrite (refreshToken_call _ _ Htok Hne). cbv zeta.
  set (w1 := emit _ w).
  assert (quietly w w1) as Hw1 by (apply quietly_emit; done).
  assert (∀ e, quietly w (emit (EvConsoleError "Token refresh failed:" e) w1)) as Herr.
  { intros e. eapply quietly_trans; [exact Hw1 |]. by apply quietly_emit. }
  destruct (net _) as [e | response]; [by eauto 6 |].
  destruct (ok response); [| by eauto 6].
  destruct (JSON_parse _) as [data | e]; [| by eauto 6].
  destruct (get_prop _ _) as [tok | e]; [| by eauto 6].
  eexists true, _. split; [done |]. split; [| done].
  eapply quietly_trans; [exact Hw1 | apply quietly_setItem].
Qed.

(** How [request] runs, by what the first call brings. *)
Lemma request_unfold endpoint options w :
  request endpoint options w =
  let url := getURL endpoint in
  let config := make_config options w in
  let w1 := emit (EvFetch url config) w in
  match net (count is_fetch (trace w)) with
  | Rejected error => (Thrown error, emit (EvConsoleError "API Request failed:" error) w1)
  | Resolved response =>
      if (status response =? 401)%nat then
        match refreshToken w1 with
        | (Ok true, w2) =>
            let w3 := emit (EvFetch url (<[ "headers" := VObj (getHeaders w2) ]> config)) w2 in
            match net (count is_fetch (trace w2)) with
            | Rejected e => (Thrown e, w3)
            | Resolved r => (Ok (Some r), w3)
            end
        | (Ok false, w2) => (Ok None, emit (EvNavigate "/login") w2)
        | (Thrown e, w2) => (Thrown e, w2)
        end
      else (Ok (Some response), w1)
  end.
Proof.
  unfold request. run. unfold fetch. cbv zeta.
  destruct (net _) as [e | response]; [done |].
  destruct (status response =? 401)%nat; [| done].
  destruct (refreshToken _) as [[[] | e] w2]; [| done | done].
  by destruct (net (count is_fetch (trace w2))).
Qed.

Lemma request_quiet endpoint options w r w' :
  request endpoint options w = (r, w') → quietly w w'.
Proof.
  rewrite request_unfold. cbv zeta. set (w1 := emit _ w).
  assert (quietly w w1) as Hw1 by (apply quietly_emit; done).
  destruct (net _) as [e | response].
  { intros [= <- <-]. eapply quietly_trans; [exact Hw1 |]. by apply quietly_emit. }
  destruct (status response =? 401)%nat; [| by intros [= <- <-]].
  destruct (refreshToken_spec w1) as (b & w2 & -> & Hw2 & _).
  assert (quietly w w2) as Hw by (eapply quietly_trans; eauto).
  destruct b.
  - destruct (net _); intros [= <- <-];
      (eapply quietly_trans; [exact Hw |]; by apply quietly_emit).
  - intros [= <- <-]. eapply quietly_trans; [exact Hw |]. by apply quietly_emit.
Qed.

(** The first thing [request] does is the call itself. *)
Lemma request_first_call endpoint options w :
  ∃ rest, trace (snd (request endpoint options w)) =
          (trace w ++ EvFetch (getURL endpoint) (make_config options w) :: rest)%list.
Proof.
  rewrite request_unfold. cbv zeta. set (w1 := emit _ w).
  assert (∀ w2, quietly w1 w2 → ∀ evs,
            ∃ rest, (trace w2 ++ evs)%list =
                    (trace w ++ EvFetch (getURL endpoint) (make_config options w) :: rest)%list)
    as Hafter.
  { intros w2 (_ & _ & evs2 & -> & _) evs. exists (evs2 ++ evs)%list.
    subst w1. simpl. by rewrite <- !app_assoc. }
  assert (∀ w2, quietly w1 w2 →
            ∃ rest, trace w2 =
                    (trace w ++ EvFetch (getURL endpoint) (make_config options w) :: rest)%list)
    as Hafter'.
  { intros w2 Hq. destruct (Hafter w2 Hq []) as [rest Hr].
    rewrite app_nil_r in Hr. eauto. }
  destruct (net _) as [e | response]; cbn [snd].
  { rewrite trace_emit. apply (Hafter w1); auto with quiet. }
  destruct (status response =? 401)%nat; cbn [snd].
  2: { apply Hafter'; auto with quiet. }
  destruct (refreshToken_spec w1) as (b & w2 & -> & Hw2 & _).
  destruct b; [destruct (net _) |]; cbn [snd]; rewrite trace_emit; by apply Hafter.
Qed.

Lemma getHeaders_token w token :
  localStorage w !! "access_token" = Some token → token ≠ "" →
  getHeaders w = [("Content-Type", VStr "application/json");
                  ("Authorization", VStr ("Bearer " ++ token))].
Proof.
  intros Htok Hne. unfold getHeaders. rewrite Htok.
  apply String.eqb_neq in Hne. by rewrite Hne.
Qed.

(** C7, as amended: with a non-empty access token in the store, the
    call goes out with the caller's options and, only when these have no
    [headers] field of their own, with the content-type and bearer
    headers; a [headers] field of the caller replaces the computed
    headers as a whole. *)
Theorem request_sends_headers endpoint options w token :
  localStorage w !! "access_token" = Some token → token ≠ "" →
  ∃ cfg rest,
    trace (snd (request endpoint options w)) =
      (trace w ++ EvFetch (getURL endpoint) cfg :: rest)%list ∧
    (∀ k, k ≠ "headers" → cfg !! k = options !! k) ∧
    match options !! "headers" with
    | Some own => cfg !! "headers" = Some own
    | None => carries cfg "Content-Type" "application/json" ∧
              carries cfg "Authorization" ("Bearer " ++ token)
    end.
Proof.
  intros Htok Hne.
  destruct (request_first_call endpoint options w) as [rest Hrest].
  exists (make_config options w), rest. split; [exact Hrest |].
  unfold make_config. rewrite (getHeaders_token _ _ Htok Hne). split.
  - intros k Hk. rewrite lookup_union, lookup_singleton_ne by done.
    by destruct (options !! k).
  - destruct (options !! "headers") as [own |] eqn:Hown.
    + by rewrite lookup_union, Hown, lookup_singleton_eq.
    + unfold carries.
      rewrite lookup_union, Hown, lookup_singleton_eq. simpl.
      split; eexists; (split; [reflexivity |]); reflexivity.
Qed.

(** C5: a 401 with a stored refresh token and a successful refresh makes
    exactly three calls: the original one, one refresh call, and the
    original one again with the headers recomputed from the store that
    now holds the new access token.  What the third call brings is the
    result, whatever it is: a second 401 starts no further refresh. *)
Theorem request_refresh_then_retry endpoint options w r1 token r2 data access_token :
  net (count is_fetch (trace w)) = Resolved r1 → status r1 = 401 →
  localStorage w !! "refresh_token" = Some token → token ≠ "" →
  net (S (count is_fetch (trace w))) = Resolved r2 → ok r2 = true →
  JSON_parse (body r2) = Ok data →
  get_prop data "access_token" = Ok access_token →
  let url := getURL endpoint in
  let config := make_config options w in
  let stored := setItem "access_token" (to_string access_token) w in
  request endpoint options w =
    (match net (S (S (count is_fetch (trace w)))) with
     | Rejected e => Thrown e
     | Resolved r => Ok (Some r)
     end,
     World (localStorage stored) (stored_queue w) (offlineQueue w)
       (trace w ++
          [EvFetch url config;
           EvFetch (getURL endpoints_auth_refresh) (refresh_config token);
           EvFetch url (<[ "headers" := VObj (getHeaders stored) ]> config)])%list).
Proof.
  intros Hn H401 Htok Hne Hn1 Hok Hdata Hacc. cbv zeta.
  rewrite request_unfold. cbv zeta. rewrite Hn, H401. simpl Nat.eqb. cbv iota.
  rewrite (refreshToken_call _ token) by done.
  cbv zeta. rewrite count_emit. simpl is_fetch. cbv iota.
  replace (count is_fetch (trace w) + 1) with (S (count is_fetch (trace w))) by lia.
  rewrite Hn1, Hok, Hdata, Hacc.
  cbv iota. rewrite trace_setItem, !count_emit. simpl is_fetch. cbv iota.
  replace (count is_fetch (trace w) + 1 + 1) with (S (S (count is_fetch (trace w)))) by lia.
  unfold emit, setItem, getHeaders; simpl.
  rewrite <- !app_assoc. simpl.
  by destruct (net (S (S _))).
Qed.

(** C6, as amended: a 401 whose refresh fails (no refresh token, or the
    refresh call rejected or answered outside the success range) ends in
    exactly one redirect to the login page and returns [undefined]; the
    original call is not made again, and the store, tokens included, is
    left as it was. *)
Theorem request_refresh_failure endpoint options w r1 :
  net (count is_fetch (trace w)) = Resolved r1 → status r1 = 401 →
  (localStorage w !! "refresh_token" = None ∨
   localStorage w !! "refresh_token" = Some "" ∨
   (∃ e, net (S (count is_fetch (trace w))) = Rejected e) ∨
   (∃ r2, net (S (count is_fetch (trace w))) = Resolved r2 ∧ ok r2 = false)) →
  ∃ evs,
    refresh_events evs ∧
    request endpoint options w =
      (Ok None,
       World (localStorage w) (stored_queue w) (offlineQueue w)
         (trace w ++ EvFetch (getURL endpoint) (make_config options w)
                     :: evs ++ [EvNavigate "/login"])%list).
Proof.
  intros Hn H401 Hfail.
  rewrite request_unfold. cbv zeta. rewrite Hn, H401. simpl Nat.eqb. cbv iota.
  set (w1 := emit _ w).
  assert (refreshToken w1 = (Ok false, w1) →
          ∃ evs, refresh_events evs ∧
            (let (r, w2) := refreshToken w1 in
             match r with
             | Ok true =>
                 match net (count is_fetch (trace w2)) with
                 | Rejected e =>
                     (Thrown e, emit (EvFetch (getURL endpoint)
                        (<[ "headers" := VObj (getHeaders w2) ]> (make_config options w))) w2)
                 | Resolved r =>
                     (Ok (Some r), emit (EvFetch (getURL endpoint)
                        (<[ "headers" := VObj (getHeaders w2) ]> (make_config options w))) w2)
                 end
             | Ok false => (Ok None, emit (EvNavigate "/login") w2)
             | Thrown e => (Thrown e, w2)
             end) =
            (Ok None,
             World (localStorage w) (stored_queue w) (offlineQueue w)
               (trace w ++ EvFetch (getURL endpoint) (make_config options w)
                        :: evs ++ [EvNavigate "/login"])%list)) as Habsent.
  { intros ->. exists []. split; [by left |].
    subst w1. unfold emit; simpl. by rewrite <- app_assoc. }
  destruct (localStorage w !! "refresh_token") as [token |] eqn:Htok.
  2: { apply Habsent, refreshToken_absent. by left. }
  destruct (decide (token = "")) as [-> | Hne].
  { apply Habsent, refreshToken_absent. by right. }
  clear Habsent.
  rewrite (refreshToken_call w1 token) by done. cbv zeta.
  subst w1. rewrite count_emit. simpl is_fetch. cbv iota.
  replace (count is_fetch (trace w) + 1) with (S (count is_fetch (trace w))) by lia.
  destruct Hfail as [? | [? | [[e He] | (r2 & Hr2 & Hok)]]]; [congruence | congruence | |].
  - rewrite He.
    exists [EvFetch (getURL endpoints_auth_refresh) (refresh_config token);
            EvConsoleError "Token refresh failed:" e].
    split; [right; exists token; right; by exists e |].
    unfold emit; simpl. by rewrite <- !app_assoc.
  - rewrite Hr2, Hok.
    exists [EvFetch (getURL endpoints_auth_refresh) (refresh_config token)].
    split; [right; exists token; by left |].
    unfold emit; simpl. by rewrite <- !app_assoc.
Qed.
End ConfigFacts.

(** *** [APIConfig] on examples *)

Section ConfigExamples.
Import APIConfig Reference.
#[local] Existing Instance engine.

Lemma request_sends_headers_witness :
  (localStorage signed_in !! "access_token" = Some "old" ∧ "old" ≠ "") ∧
  ∃ cfg rest,
    trace (snd (@request engine (answers [Resolved token_body]) "/users/me" ∅ signed_in)) =
      (trace signed_in
         ++ EvFetch (@getURL (answers [Resolved token_body]) "/users/me") cfg :: rest)%list ∧
    (∀ k, k ≠ "headers" → cfg !! k = (∅ : jsobj) !! k) ∧
    match (∅ : jsobj) !! "headers" with
    | Some own => cfg !! "headers" = Some own
    | None => carries cfg "Content-Type" "application/json" ∧
              carries cfg "Authorization" ("Bearer " ++ "old")
    end.
Proof.
  split; [split; [reflexivity | discriminate] |].
  apply (@request_sends_headers engine (answers [Resolved token_body])
           "/users/me" ∅ signed_in "old"); [reflexivity | discriminate].
Defined.

(** C7 fails as stated: [login] supplies [headers: {}], and the call then
    goes out with neither header although a token is stored. *)
Lemma caller_headers_replace_computed :
  localStorage signed_in !! "access_token" = Some "old" ∧
  ¬ ∃ cfg rest,
      trace (snd (@request engine (answers [Resolved token_body]) "/token"
                    login_options signed_in)) =
        (trace signed_in
           ++ EvFetch (@getURL (answers [Resolved token_body]) "/token") cfg :: rest)%list ∧
      carries cfg "Content-Type" "application/json" ∧
      carries cfg "Authorization" ("Bearer " ++ "old").
Proof.
  split; [reflexivity |].
  intros (cfg & rest & Htrace & _ & (headers & Hcfg & Hauth)).
  assert (trace (snd (@request engine (answers [Resolved token_body]) "/token"
                        login_options signed_in)) =
          [EvFetch "http://localhost:8005/token" login_options]) as Hrun
    by (vm_compute; reflexivity).
  rewrite Hrun in Htrace. simpl in Htrace.
  injection Htrace; intros; subst cfg.
  vm_compute in Hcfg. injection Hcfg as <-. discriminate Hauth.
Qed.

Lemma request_refresh_then_retry_witness :
  let env := answers [Resolved unauthorized; Resolved token_body; Resolved unauthorized] in
  let data := VObj [("access_token", VStr "new")] in
  (@net env (count is_fetch (trace signed_in)) = Resolved unauthorized ∧
   status unauthorized = 401 ∧
   localStorage signed_in !! "refresh_token" = Some "stale" ∧ "stale" ≠ "" ∧
   @net env (S (count is_fetch (trace signed_in))) = Resolved token_body ∧
   ok token_body = true ∧
   @JSON_parse engine (body token_body) = Ok data ∧
   @get_prop engine data "access_token" = Ok (VStr "new")) ∧
  @request engine env "/users/me" ∅ signed_in =
    (Ok (Some unauthorized),
     World (<[ "access_token" := "new" ]> both_tokens) None []
       [EvFetch "http://localhost:8005/users/me" (make_config ∅ signed_in);
        EvFetch "http://localhost:8005/auth/refresh" (@refresh_config engine "stale");
        EvFetch "http://localhost:8005/users/me"
          (<[ "headers" := VObj [("Content-Type", VStr "application/json");
                                 ("Authorization", VStr "Bearer new")] ]>
             (make_config ∅ signed_in))]).
Proof.
  intros env data.
  split; [repeat split; (reflexivity || discriminate) |].
  apply (@request_refresh_then_retry engine env "/users/me" ∅ signed_in
           unauthorized "stale" token_body data (VStr "new"));
    (reflexivity || discriminate).
Defined.

Lemma request_refresh_failure_witness :
  let env := answers [Resolved unauthorized; Resolved bad_request] in
  (@net env (count is_fetch (trace signed_in)) = Resolved unauthorized ∧
   status unauthorized = 401 ∧
   @net env (S (count is_fetch (trace signed_in))) = Resolved bad_request ∧
   ok bad_request = false) ∧
  ∃ evs,
    @refresh_events engine env evs ∧
    @request engine env "/users/me" ∅ signed_in =
      (Ok None,
       World (localStorage signed_in) (stored_queue signed_in) (offlineQueue signed_in)
         (trace signed_in
            ++ EvFetch (@getURL env "/users/me") (make_config ∅ signed_in)
               :: evs ++ [EvNavigate "/login"])%list).
Proof.
  intros env. split; [by repeat split |].
  apply (@request_refresh_failure engine env "/users/me" ∅ signed_in unauthorized);
    [reflexivity | reflexivity |].
  right; right; right. exists bad_request. split; reflexivity.
Defined.

(** C6 fails as stated: after the failed refresh both tokens are still
    in the store. *)
Lemma refresh_failure_keeps_tokens :
  let env := answers [Resolved unauthorized; Resolved bad_request] in
  let after := @request engine env "/users/me" ∅ signed_in in
  fst after = Ok None ∧
  localStorage (snd after) !! "access_token" = Some "old" ∧
  localStorage (snd after) !! "refresh_token" = Some "stale" ∧
  ¬ tokens_discarded (snd after).
Proof.
  intros env after.
  assert (localStorage (snd after) !! "access_token" = Some "old") as Hacc
    by (vm_compute; reflexivity).
  split; [vm_compute; reflexivity |].
  split; [exact Hacc |].
  split; [vm_compute; reflexivity |].
  intros [Hgone _]. rewrite Hgone in Hacc. discriminate Hacc.
Qed.
End ConfigExamples.

(** ** [APIClient] *)

Section ClientFacts.
Context `{JSEngine} `{Environment}.
Import APIConfig APIClient.

(** [makeRequest], one attempt at a time, as the source reads. *)
Lemma makeRequest_unfold endpoint options attempt w :
  makeRequest endpoint options attempt w =
  match makeRequest_try endpoint options w with
  | (Ok response, w1) => (Ok response, w1)
  | (Thrown error, w1) =>
      if bool_decide (attempt < retryAttempts) && shouldRetry error
      then makeRequest endpoint options (attempt + 1) (waited (logged attempt error w1))
      else stop_retrying endpoint options error (logged attempt error w1)
  end.
Proof.
  rewrite makeRequest_equation_1. unfold try_catch at 1.
  destruct (makeRequest_try endpoint options w) as [[response | error] w1]; [done |].
  run. unfold logged, waited, delay, act.
  destruct (decide (attempt < retryAttempts)) as [Hlt | Hge].
  - rewrite bool_decide_true by done. simpl. by destruct (shouldRetry error).
  - by rewrite bool_decide_false by done.
Qed.

Lemma stop_retrying_unfold endpoint options error w :
  stop_retrying endpoint options error w =
  let online := onLine (count is_onLine (trace w)) in
  let w1 := emit (EvOnLine online) w in
  if online then (Thrown error, w1)
  else (Thrown queued_error,
        enqueued endpoint options (now (count is_now (trace w1))) w1).
Proof.
  unfold stop_retrying, queueOfflineRequest, read_onLine, Date_now, enqueued. run.
  by destruct (onLine _).
Qed.

Lemma makeRequest_try_unfold endpoint options w :
  makeRequest_try endpoint options w =
  match request endpoint options w with
  | (Ok (Some response), w1) =>
      if ok response then (Ok response, w1) else (Thrown (http_error response), w1)
  | (Ok None, w1) => (Thrown (type_error VUndef "ok"), w1)
  | (Thrown e, w1) => (Thrown e, w1)
  end.
Proof.
  unfold makeRequest_try. run.
  destruct (request endpoint options w) as [[[response |] | e] w1]; try done.
  by destruct (ok response).
Qed.

Lemma makeRequest_try_quiet endpoint options w r w' :
  makeRequest_try endpoint options w = (r, w') → quietly w w'.
Proof.
  rewrite makeRequest_try_unfold.
  destruct (request endpoint options w) as [[[response |] | e] w1] eqn:Hreq;
    apply request_quiet in Hreq.
  - destruct (ok response); by intros [= <- <-].
  - by intros [= <- <-].
  - by intros [= <- <-].
Qed.

Lemma quietly_logged attempt error w : quietly w (logged attempt error w).
Proof. by apply quietly_emit. Qed.

Lemma quietly_waited w : quietly w (waited w).
Proof.
  unfold waited. eapply quietly_trans; [| by apply quietly_emit].
  by apply quietly_emit.
Qed.

(** Induction along the attempts of one [makeRequest] call. *)
Lemma makeRequest_attempts endpoint options
      (P : nat → world → result response * world → Prop) :
  (∀ attempt w response w1,
     makeRequest_try endpoint options w = (Ok response, w1) →
     P attempt w (Ok response, w1)) →
  (∀ attempt w error w1,
     makeRequest_try endpoint options w = (Thrown error, w1) →
     attempt < retryAttempts → shouldRetry error = true →
     P (attempt + 1) (waited (logged attempt error w1))
       (makeRequest endpoint options (attempt + 1) (waited (logged attempt error w1))) →
     P attempt w
       (makeRequest endpoint options (attempt + 1) (waited (logged attempt error w1)))) →
  (∀ attempt w error w1,
     makeRequest_try endpoint options w = (Thrown error, w1) →
     (retryAttempts ≤ attempt)%nat ∨ shouldRetry error = false →
     P attempt w (stop_retrying endpoint options error (logged attempt error w1))) →
  ∀ attempt w, P attempt w (makeRequest endpoint options attempt w).
Proof.
  intros Hok Hretry Hstop attempt.
  remember (retryAttempts - attempt) as budget eqn:Hbudget.
  revert attempt Hbudget.
  induction budget as [| budget IH]; intros attempt Hbudget w;
    rewrite makeRequest_unfold;
    destruct (makeRequest_try endpoint options w) as [[response | error] w1] eqn:Htry;
    try (by apply Hok).
  - rewrite bool_decide_false by lia. simpl. apply Hstop; [done | left; lia].
  - destruct (decide (attempt < retryAttempts)) as [Hlt | Hge].
    + rewrite bool_decide_true by done. simpl.
      destruct (shouldRetry error) eqn:Hshould.
      * apply Hretry; try done. apply IH. lia.
      * apply Hstop; [done | by right].
    + rewrite bool_decide_false by done. simpl. apply Hstop; [done | left; lia].
Qed.



(** *** Retry on 5xx *)

Lemma dec_5xx n : (500 ≤ n ≤ 599)%nat → ∃ rest, dec n = String "5" rest.
Proof.
  intros Hn.
  assert (forallb (fun k => String.prefix "5" (dec k)) (seq 500 100) = true) as Hall
    by (vm_compute; reflexivity).
  rewrite forallb_forall in Hall.
  specialize (Hall n). rewrite in_seq in Hall.
  specialize (Hall ltac:(lia)).
  destruct (dec n) as [| c rest]; [discriminate |].
  simpl in Hall. destruct (Ascii.eqb_spec "5"%char c) as [<- | ?]; [| by destruct c as [[] [] [] [] [] [] [] []]].
  by exists rest.
Qed.

Lemma shouldRetry_5xx r :
  (500 ≤ status r ≤ 599)%nat → shouldRetry (http_error r) = true.
Proof.
  intros Hr. destruct (dec_5xx _ Hr) as [rest Hdec].
  unfold shouldRetry, http_error; simpl message. rewrite Hdec.
  assert (includes ("HTTP " ++ String "5" rest ++ ": " ++ statusText r) "5" = true) as ->;
    [| by rewrite orb_true_r].
  apply includes_after.
  change (String "5" rest ++ ": " ++ statusText r)
    with (String "5" (rest ++ ": " ++ statusText r)).
  apply includes_prefix. cbn. by destruct (rest ++ _).
Qed.

Lemma make_config_store options w w' :
  localStorage w' = localStorage w → make_config options w' = make_config options w.
Proof. intros Hs. unfold make_config, getHeaders. by rewrite Hs. Qed.

(** One attempt answered in the success range ([w0] is any world with
    the same store, for instance the one the request started in). *)
Lemma attempt_ok endpoint options w0 w r :
  localStorage w = localStorage w0 →
  net (count is_fetch (trace w)) = Resolved r → ok r = true →
  makeRequest_try endpoint options w =
    (Ok r, emit (EvFetch (getURL endpoint) (make_config options w0)) w).
Proof.
  intros Hs Hn Hok. rewrite makeRequest_try_unfold, request_unfold. cbv zeta.
  rewrite Hn, (make_config_store options w0 w Hs).
  assert ((status r =? 401)%nat = false) as ->.
  { unfold ok in Hok. apply Nat.eqb_neq. intros H401. rewrite H401 in Hok. done. }
  by rewrite Hok.
Qed.

(** One attempt answered with a 5xx. *)
Lemma attempt_5xx endpoint options w0 w r :
  localStorage w = localStorage w0 →
  net (count is_fetch (trace w)) = Resolved r → (500 ≤ status r ≤ 599)%nat →
  makeRequest_try endpoint options w =
    (Thrown (http_error r), emit (EvFetch (getURL endpoint) (make_config options w0)) w).
Proof.
  intros Hs Hn Hr. rewrite makeRequest_try_unfold, request_unfold. cbv zeta.
  rewrite Hn, (make_config_store options w0 w Hs).
  assert ((status r =? 401)%nat = false) as -> by (apply Nat.eqb_neq; lia).
  assert (ok r = false) as ->; [| done].
  unfold ok. apply andb_false_iff. right. apply Nat.leb_gt. lia.
Qed.

(** C3: two 5xx answers and then a success make exactly three calls,
    each retry after a delay of [retryDelay] = 1000 ms (the same delay
    both times), and the third answer is returned.  From attempt
    [retryAttempts] = 3 on, a failed attempt is never retried. *)
Theorem makeRequest_retries_5xx endpoint options w r1 r2 r3 :
  net (count is_fetch (trace w)) = Resolved r1 →
  net (S (count is_fetch (trace w))) = Resolved r2 →
  net (S (S (count is_fetch (trace w)))) = Resolved r3 →
  (500 ≤ status r1 ≤ 599)%nat → (500 ≤ status r2 ≤ 599)%nat → ok r3 = true →
  let call := EvFetch (getURL endpoint) (make_config options w) in
  makeRequest endpoint options 1 w =
    (Ok r3,
     World (localStorage w) (stored_queue w) (offlineQueue w)
       (trace w ++
          [call;
           EvConsoleError "API request failed (attempt 1):" (http_error r1);
           EvConsoleLog "Retrying in 1000ms..."; EvDelay 1000;
           call;
           EvConsoleError "API request failed (attempt 2):" (http_error r2);
           EvConsoleLog "Retrying in 1000ms..."; EvDelay 1000;
           call])%list) ∧
  ∀ attempt w0, (retryAttempts ≤ attempt)%nat →
    makeRequest endpoint options attempt w0 =
    match makeRequest_try endpoint options w0 with
    | (Ok response, w1) => (Ok response, w1)
    | (Thrown error, w1) => stop_retrying endpoint options error (logged attempt error w1)
    end.
Proof.
  intros Hn1 Hn2 Hn3 Hr1 Hr2 Hok3 call. split.
  - rewrite makeRequest_unfold, (attempt_5xx _ _ w w r1) by done.
    rewrite (shouldRetry_5xx r1) by done.
    rewrite bool_decide_true by (unfold retryAttempts; lia). cbn [andb].
    set (w1 := waited (logged 1 (http_error r1) (emit _ w))).
    assert (count is_fetch (trace w1) = S (count is_fetch (trace w))) as Hc1.
    { subst w1. unfold waited, logged. rewrite !count_emit. simpl. lia. }
    rewrite makeRequest_unfold, (attempt_5xx _ _ w w1 r2) by (by rewrite ?Hc1).
    rewrite (shouldRetry_5xx r2) by done.
    rewrite bool_decide_true by (unfold retryAttempts; lia). cbn [andb].
    set (w2 := waited (logged (1 + 1) (http_error r2) (emit _ w1))).
    assert (count is_fetch (trace w2) = S (S (count is_fetch (trace w)))) as Hc2.
    { subst w2. unfold waited, logged. rewrite !count_emit, Hc1. simpl. lia. }
    rewrite makeRequest_unfold, (attempt_ok _ _ w w2 r3) by (by rewrite ?Hc2).
    subst w2 w1 call. unfold waited, logged, emit.
    cbn [trace localStorage stored_queue offlineQueue].
    by rewrite <- !app_assoc.
  - intros attempt w0 Hbound. rewrite makeRequest_unfold.
    destruct (makeRequest_try endpoint options w0) as [[response | error] w1]; [done |].
    by rewrite bool_decide_false by lia.
Qed.

(** *** Queue replay *)








(** The calls of a replay, online or not. *)

Lemma extends_refl w : extends w w.
Proof. exists []. by rewrite app_nil_r. Qed.

Lemma extends_trans w1 w2 w3 : extends w1 w2 → extends w2 w3 → extends w1 w3.
Proof.
  intros [evs Ht] [evs' Ht']. exists (evs ++ evs')%list. by rewrite Ht', Ht, app_assoc.
Qed.

Lemma quietly_extends w w' : quietly w w' → extends w w'.
Proof. intros (_ & _ & evs & Ht & _). by exists evs. Qed.

Lemma extends_emit e w : extends w (emit e w).
Proof. by exists [e]. Qed.

Lemma stop_retrying_extends endpoint options error w :
  extends w (snd (stop_retrying endpoint options error w)).
Proof.
  rewrite stop_retrying_unfold. cbv zeta. destruct (onLine _); cbn [snd].
  - apply extends_emit.
  - eapply extends_trans; [apply (extends_emit (EvOnLine false)) |].
    by eexists [_].
Qed.

Lemma makeRequest_extends endpoint options attempt w :
  extends w (snd (makeRequest endpoint options attempt w)).
Proof.
  apply (makeRequest_attempts endpoint options
           (fun attempt w out => extends w (snd out))).
  - intros ? ? ? ? Htry. by apply makeRequest_try_quiet, quietly_extends in Htry.
  - intros a w0 error w1 Htry _ _ IH.
    eapply extends_trans; [| exact IH]. apply quietly_extends.
    eapply quietly_trans; [by eapply makeRequest_try_quiet |].
    eapply quietly_trans; [apply quietly_logged | apply quietly_waited].
  - intros a w0 error w1 Htry _.
    eapply extends_trans; [| apply stop_retrying_extends]. apply quietly_extends.
    eapply quietly_trans; [by eapply makeRequest_try_quiet | apply quietly_logged].
Qed.

(** Whatever comes of it, a request starts with the call itself. *)
Lemma makeRequest_first_call endpoint options attempt w :
  ∃ rest, trace (snd (makeRequest endpoint options attempt w)) =
          (trace w ++ EvFetch (getURL endpoint) (make_config options w) :: rest)%list.
Proof.
  destruct (request_first_call endpoint options w) as [rest1 Hfirst].
  assert (∀ w2, extends (snd (makeRequest_try endpoint options w)) w2 →
            ∃ rest, trace w2 =
              (trace w ++ EvFetch (getURL endpoint) (make_config options w) :: rest)%list)
    as Hafter.
  { intros w2 [evs Ht]. exists (rest1 ++ evs)%list. rewrite Ht.
    rewrite makeRequest_try_unfold.
    destruct (request endpoint options w) as [[[response |] | e] w1];
      cbn [snd] in *; [destruct (ok response) | |]; cbn [snd];
      by rewrite Hfirst, <- app_assoc. }
  rewrite makeRequest_unfold.
  destruct (makeRequest_try endpoint options w) as [[response | error] w1];
    cbn [snd] in Hafter.
  - apply Hafter, extends_refl.
  - destruct (_ && _); apply Hafter.
    + eapply extends_trans; [| apply makeRequest_extends].
      apply quietly_extends.
      eapply quietly_trans; [apply quietly_logged | apply quietly_waited].
    + eapply extends_trans; [| apply stop_retrying_extends].
      apply quietly_extends, quietly_logged.
Qed.

Lemma make_config_call_for entry w :
  call_for entry (EvFetch (getURL (endpoint entry)) (make_config (options entry) w)).
Proof.
  eexists. split; [reflexivity |]. unfold make_config. split.
  - intros k Hk. rewrite lookup_union, lookup_singleton_ne by done.
    by destruct (options entry !! k).
  - intros own Hown. by rewrite lookup_union, Hown, lookup_singleton_eq.
Qed.

Lemma replay_one_calls request w :
  ∃ w' call rest, replay_one request w = (Ok tt, w') ∧
                  trace w' = (trace w ++ call :: rest)%list ∧ call_for request call.
Proof.
  destruct (makeRequest_first_call (endpoint request) (options request) 1 w)
    as [rest Hfirst].
  unfold replay_one, try_catch, bind, act.
  destruct (makeRequest _ _ 1 w) as [[response | error] w1]; cbn [snd] in Hfirst;
    eexists _, _, (rest ++ [_])%list;
    (split; [reflexivity |]); (split; [| apply make_config_call_for]);
    by rewrite trace_emit, Hfirst, <- app_assoc.
Qed.

Lemma replay_calls queue w :
  ∃ w' evs calls, replay queue w = (Ok tt, w') ∧
                  trace w' = (trace w ++ evs)%list ∧
                  sublist calls evs ∧ Forall2 call_for queue calls.
Proof.
  revert w. induction queue as [| request rest IH]; intros w.
  - exists w, [], []. cbn. rewrite app_nil_r. repeat split; constructor.
  - destruct (replay_one_calls request w) as (w1 & call & rest1 & Hone & Ht1 & Hcall).
    destruct (IH w1) as (w2 & evs2 & calls2 & Hrest & Ht2 & Hsub & Hall).
    exists w2, (call :: rest1 ++ evs2)%list, (call :: calls2).
    cbn [replay]. unfold bind at 1. rewrite Hone, Hrest.
    split; [done |]. split.
    + rewrite Ht2, Ht1, <- app_assoc. done.
    + split; [| by constructor].
      apply sublist_skip. by apply sublist_inserts_l.
Qed.

Section Online.
(** The client stays online: every reading of [navigator.onLine] says so. *)
Hypothesis stays_online : ∀ k, onLine k = true.





End Online.
End ClientFacts.

(** *** [APIClient] on examples *)

Section ClientExamples.
Import APIConfig APIClient Reference.
#[local] Existing Instance engine.


Lemma makeRequest_retries_5xx_witness :
  (@net recovering (count is_fetch (trace (fresh ∅))) = Resolved unavailable ∧
   @net recovering (S (count is_fetch (trace (fresh ∅)))) = Resolved bad_gateway ∧
   @net recovering (S (S (count is_fetch (trace (fresh ∅))))) = Resolved fine ∧
   (500 ≤ status unavailable ≤ 599)%nat ∧ (500 ≤ status bad_gateway ≤ 599)%nat ∧
   ok fine = true) ∧
  count is_fetch
    (trace (snd (@makeRequest engine recovering "/users/me" ∅ 1 (fresh ∅)))) = 3 ∧
  fst (@makeRequest engine recovering "/users/me" ∅ 1 (fresh ∅)) = Ok fine.
Proof.
  split.
  { repeat (split; [first [reflexivity | simpl; lia] |]). reflexivity. }
  destruct (@makeRequest_retries_5xx engine recovering "/users/me" ∅ (fresh ∅)
              unavailable bad_gateway fine) as [Hrun _];
    [reflexivity | reflexivity | reflexivity | simpl; lia | simpl; lia | reflexivity |].
  rewrite Hrun. split; reflexivity.
Defined.

(** C4 fails on the code: the status 405 is a 4xx other than 401, yet
    its message "HTTP 405: Method Not Allowed" contains the character 5,
    so [shouldRetry] accepts it and three calls are made; a 404, whose
    message has no 5 in it, is given up after one call. *)
Theorem method_not_allowed_is_retried :
  let always_405 := browser [Resolved method_not_allowed; Resolved method_not_allowed;
                             Resolved method_not_allowed] true in
  let always_404 := browser [Resolved not_found; Resolved not_found;
                             Resolved not_found] true in
  shouldRetry (http_error method_not_allowed) = true ∧
  count is_fetch
    (trace (snd (@makeRequest engine always_405 "/farms" ∅ 1 (fresh ∅)))) = 3 ∧
  fst (@makeRequest engine always_405 "/farms" ∅ 1 (fresh ∅))
    = Thrown (http_error method_not_allowed) ∧
  shouldRetry (http_error not_found) = false ∧
  count is_fetch
    (trace (snd (@makeRequest engine always_404 "/farms" ∅ 1 (fresh ∅)))) = 1.
Proof. intros. repeat split; vm_compute; reflexivity. Qed.


End ClientExamples.

(** ** The stream decoding loops *)

Section PageFacts.
Context `{JSEngine} {L : Type}.
Implicit Types d : decoder L.

Lemma same_page_refl d : same_page d d.
Proof. by split. Qed.

Lemma same_page_trans d1 d2 d3 : same_page d1 d2 → same_page d2 d3 → same_page d1 d3.
Proof. intros [? ?] [? ?]. split; congruence. Qed.

Lemma same_page_sym d1 d2 : same_page d1 d2 → same_page d2 d1.
Proof. intros [? ?]. by split. Qed.

Lemma same_outcome_bind {A B} (m1 m2 : ST (decoder L) A) (k : A → ST (decoder L) B) d1 d2 :
  same_outcome (m1 d1) (m2 d2) → (∀ a, respects (k a)) →
  same_outcome (bind m1 k d1) (bind m2 k d2).
Proof.
  unfold bind. intros [Hr Hp] Hk.
  destruct (m1 d1) as [[a1 | e1] d1'], (m2 d2) as [[a2 | e2] d2'];
    simpl in Hr; try discriminate; injection Hr as ->.
  - by apply Hk.
  - by split.
Qed.

Lemma respects_bind {A B} (m : ST (decoder L) A) (k : A → ST (decoder L) B) :
  respects m → (∀ a, respects (k a)) → respects (bind m k).
Proof. intros Hm Hk d1 d2 Hd. apply same_outcome_bind; auto. Qed.

Lemma respects_try_catch {A} (m : ST (decoder L) A) handler :
  respects m → (∀ e, respects (handler e)) → respects (try_catch m handler).
Proof.
  intros Hm Hh d1 d2 Hd. unfold try_catch.
  destruct (Hm d1 d2 Hd) as [Hr Hp].
  destruct (m d1) as [[a1 | e1] d1'], (m d2) as [[a2 | e2] d2'];
    simpl in Hr; try discriminate; injection Hr as ->.
  - by split.
  - by apply Hh.
Qed.

Lemma respects_ret {A} (a : A) : respects (ret a : ST (decoder L) A).
Proof. by intros d1 d2 Hd. Qed.

Lemma respects_throw {A} e : respects (throw e : ST (decoder L) A).
Proof. by intros d1 d2 Hd. Qed.

Lemma respects_of_result {A} (r : result A) : respects (of_result r : ST (decoder L) A).
Proof. by intros d1 d2 Hd. Qed.

Lemma respects_field data k : respects (field data k : ST (decoder L) jsval).
Proof. apply respects_of_result. Qed.

Lemma respects_show e : respects (show e : ST (decoder L) unit).
Proof. intros d1 d2 [Hl Hu]. repeat split; simpl; congruence. Qed.

Lemma respects_console_error label e :
  respects (console_error label e : ST (decoder L) unit).
Proof. intros d1 d2 [Hl Hu]. repeat split; simpl; congruence. Qed.

Lemma respects_get_locals : respects (get_locals : ST (decoder L) L).
Proof. intros d1 d2 [Hl Hu]. repeat split; simpl; congruence. Qed.

Lemma respects_set_locals f : respects (set_locals f : ST (decoder L) unit).
Proof. intros d1 d2 [Hl Hu]. repeat split; simpl; congruence. Qed.

Lemma respects_parse_line line : respects (parse_line line : ST (decoder L) jsval).
Proof. intros d1 d2 [Hl Hu]. repeat split; simpl; congruence. Qed.

Lemma respects_when b (m : ST (decoder L) unit) : respects m → respects (when b m).
Proof. intros Hm. destruct b; [done | apply respects_ret]. Qed.

Lemma parses_nothing_bind {A B} (m : ST (decoder L) A) (k : A → ST (decoder L) B) :
  parses_nothing m → (∀ a, parses_nothing (k a)) → parses_nothing (bind m k).
Proof.
  intros Hm Hk d. unfold bind. specialize (Hm d).
  destruct (m d) as [[a | e] d']; [| done].
  rewrite Hk. exact Hm.
Qed.

Lemma parses_nothing_try_catch {A} (m : ST (decoder L) A) handler :
  parses_nothing m → (∀ e, parses_nothing (handler e)) →
  parses_nothing (try_catch m handler).
Proof.
  intros Hm Hh d. unfold try_catch. specialize (Hm d).
  destruct (m d) as [[a | e] d']; [done |].
  rewrite Hh. exact Hm.
Qed.

Lemma parses_nothing_ret {A} (a : A) : parses_nothing (ret a : ST (decoder L) A).
Proof. by intros d. Qed.

Lemma parses_nothing_throw {A} e : parses_nothing (throw e : ST (decoder L) A).
Proof. by intros d. Qed.

Lemma parses_nothing_field data k : parses_nothing (field data k : ST (decoder L) jsval).
Proof. by intros d. Qed.

Lemma parses_nothing_of_result {A} (r : result A) :
  parses_nothing (of_result r : ST (decoder L) A).
Proof. by intros d. Qed.

Lemma parses_nothing_show e : parses_nothing (show e : ST (decoder L) unit).
Proof. by intros d. Qed.

Lemma parses_nothing_console_error label e :
  parses_nothing (console_error label e : ST (decoder L) unit).
Proof. by intros d. Qed.

Lemma parses_nothing_get_locals : parses_nothing (get_locals : ST (decoder L) L).
Proof. by intros d. Qed.

Lemma parses_nothing_set_locals f : parses_nothing (set_locals f : ST (decoder L) unit).
Proof. by intros d. Qed.

Lemma parses_nothing_when b (m : ST (decoder L) unit) :
  parses_nothing m → parses_nothing (when b m).
Proof. intros Hm. destruct b; [done | apply parses_nothing_ret]. Qed.

(** A text that [JSON.parse] rejects: the body of the [try] stops at
    once, having only recorded the attempt. *)
Lemma parse_line_rejected {A} line e (k : jsval → ST (decoder L) A) d :
  JSON_parse line = Thrown e →
  bind (parse_line line) k d =
    (Thrown e, Decoder (locals d) (ui d) (console d) (parsed d ++ [line])%list).
Proof. intros Hp. unfold bind, parse_line. by rewrite Hp. Qed.
End PageFacts.

Create HintDb page.
#[export] Hint Resolve
  respects_ret respects_throw respects_of_result respects_field respects_show
  respects_console_error respects_get_locals respects_set_locals
  respects_parse_line respects_when
  parses_nothing_ret parses_nothing_throw parses_nothing_of_result
  parses_nothing_field parses_nothing_show parses_nothing_console_error
  parses_nothing_get_locals parses_nothing_set_locals parses_nothing_when : page.

(** Walk through a body built from [bind], [try_catch] and conditionals. *)
Ltac walk :=
  repeat first
    [ apply respects_bind; [| intros ?]
    | apply respects_try_catch; [| intros ?]
    | apply parses_nothing_bind; [| intros ?]
    | apply parses_nothing_try_catch; [| intros ?]
    | apply respects_when
    | apply parses_nothing_when
    | match goal with
      | |- respects (if ?b then _ else _) => destruct b
      | |- parses_nothing (if ?b then _ else _) => destruct b
      end
    | solve [auto with page] ].

Section QueryFacts.
Context `{JSEngine}.
Import Query.

Lemma query_line_body_respects line : respects (line_body line).
Proof. unfold line_body. walk. Qed.

Lemma query_step_respects line : respects (step line).
Proof.
  apply respects_try_catch; [apply query_line_body_respects | intros ?; auto with page].
Qed.

Lemma query_step_never_throws line d : fst (step line d) = Ok tt.
Proof.
  unfold step, try_catch, console_error, act.
  by destruct (line_body line d) as [[[] | e] d'].
Qed.

Lemma query_for_lines_respects lines : respects (for_lines lines).
Proof.
  induction lines as [| line rest IH]; cbn [for_lines]; [apply respects_ret |].
  apply respects_bind; [apply query_step_respects | by intros _].
Qed.

Lemma query_for_lines_never_throws lines d : fst (for_lines lines d) = Ok tt.
Proof.
  revert d. induction lines as [| line rest IH]; intros d; [done |].
  cbn [for_lines]. unfold bind.
  pose proof (query_step_never_throws line d) as Hs.
  destruct (step line d) as [[[] | e] d']; [apply IH | discriminate].
Qed.

Lemma query_read_loop_respects chunks : respects (read_loop chunks).
Proof.
  induction chunks as [| value rest IH]; cbn [read_loop]; [apply respects_ret |].
  apply respects_bind; [apply query_for_lines_respects | by intros _].
Qed.

Lemma query_read_loop_never_throws chunks d : fst (read_loop chunks d) = Ok tt.
Proof.
  revert d. induction chunks as [| value rest IH]; intros d; [done |].
  cbn [read_loop]. unfold bind.
  pose proof (query_for_lines_never_throws (lines_of (utf8_decode value)) d) as Hs.
  destruct (for_lines _ d) as [[[] | e] d']; [apply IH | discriminate].
Qed.

(** A line that is not JSON changes neither the page nor the variables,
    and the loop goes on with the next line. *)
Lemma query_step_rejected bad e d :
  JSON_parse bad = Thrown e →
  step bad d =
    (Ok tt, Decoder (locals d) (ui d)
              (console d ++ [("Error parsing response chunk:", e)])%list
              (parsed d ++ [bad])%list).
Proof.
  intros Hbad. unfold step, try_catch, line_body.
  by rewrite (parse_line_rejected bad e _ d Hbad).
Qed.

(** An envelope with a truthy [error] field: the [Error] thrown for it
    is caught by the [catch] of the same line, logged like a parse
    failure, and the loop goes on; the page and the variables stay as
    they were. *)
Lemma query_error_envelope_swallowed line data error d :
  JSON_parse line = Ok data → get_prop data "error" = Ok error →
  truthy error = true →
  step line d =
    (Ok tt, Decoder (locals d) (ui d)
              (console d ++ [("Error parsing response chunk:",
                              JsError "Error" (to_string error))])%list
              (parsed d ++ [line])%list).
Proof.
  intros Hparse Herror Htruthy.
  unfold step, try_catch, line_body, dispatch, bind, parse_line, field, of_result.
  by rewrite Hparse, Herror, Htruthy.
Qed.

Lemma query_for_lines_skips bad e l1 l2 d1 d2 :
  JSON_parse bad = Thrown e → same_page d1 d2 →
  same_outcome (for_lines (l1 ++ bad :: l2) d1) (for_lines (l1 ++ l2) d2).
Proof.
  intros Hbad. revert d1 d2. induction l1 as [| line l1 IH]; intros d1 d2 Hd.
  - cbn [app for_lines]. unfold bind at 1.
    rewrite (query_step_rejected bad e d1 Hbad).
    apply query_for_lines_respects. destruct Hd. by split.
  - cbn [app for_lines].
    pose proof (query_step_respects line d1 d2 Hd) as [Hr Hp].
    unfold bind.
    destruct (step line d1) as [[[] | e1] d1'], (step line d2) as [[[] | e2] d2'];
      simpl in Hr; try discriminate.
    + by apply IH.
    + by split.
Qed.

Lemma query_read_loop_skips bad e l1 l2 before after c c' d1 d2 :
  JSON_parse bad = Thrown e →
  lines_of (utf8_decode c) = (l1 ++ bad :: l2)%list →
  lines_of (utf8_decode c') = (l1 ++ l2)%list →
  same_page d1 d2 →
  same_outcome (read_loop (before ++ c :: after) d1)
               (read_loop (before ++ c' :: after) d2).
Proof.
  intros Hbad Hc Hc'. revert d1 d2.
  induction before as [| value before IH]; intros d1 d2 Hd; cbn [app read_loop].
  - apply same_outcome_bind; [| intros _; apply query_read_loop_respects].
    rewrite Hc, Hc'. by eapply query_for_lines_skips.
  - pose proof (query_for_lines_respects (lines_of (utf8_decode value)) d1 d2 Hd) as [Hr Hp].
    unfold bind.
    destruct (for_lines _ d1) as [[[] | e1] d1'], (for_lines _ d2) as [[[] | e2] d2'];
      simpl in Hr; try discriminate.
    + by apply IH.
    + by split.
Qed.

Lemma query_dispatch_parses_nothing data : parses_nothing (dispatch data).
Proof. unfold dispatch. walk. Qed.

(** Each line is handed to [JSON.parse] once, whatever comes of it. *)
Lemma query_step_parsed line d : parsed (snd (step line d)) = (parsed d ++ [line])%list.
Proof.
  unfold step, line_body, try_catch, bind at 1, parse_line.
  destruct (JSON_parse line) as [data | e]; [| done].
  pose proof (query_dispatch_parses_nothing data
                (Decoder (locals d) (ui d) (console d) (parsed d ++ [line])%list)) as Hrest.
  by destruct (dispatch data _) as [[[] | e] d'].
Qed.

Lemma query_for_lines_parsed lines d :
  parsed (snd (for_lines lines d)) = (parsed d ++ lines)%list.
Proof.
  revert d. induction lines as [| line rest IH]; intros d.
  - by rewrite app_nil_r.
  - cbn [for_lines]. unfold bind.
    pose proof (query_step_never_throws line d) as Hs.
    pose proof (query_step_parsed line d) as Hp.
    destruct (step line d) as [[[] | e] d']; [| discriminate].
    rewrite IH. cbn [snd] in Hp. by rewrite Hp, <- app_assoc.
Qed.

Lemma query_read_loop_parsed chunks d :
  parsed (snd (read_loop chunks d)) =
  (parsed d ++ flat_map (fun value => lines_of (utf8_decode value)) chunks)%list.
Proof.
  revert d. induction chunks as [| value rest IH]; intros d.
  - by rewrite app_nil_r.
  - cbn [read_loop flat_map]. unfold bind.
    pose proof (query_for_lines_never_throws (lines_of (utf8_decode value)) d) as Hs.
    pose proof (query_for_lines_parsed (lines_of (utf8_decode value)) d) as Hp.
    destruct (for_lines _ d) as [[[] | e] d']; [| discriminate].
    rewrite IH. cbn [snd] in Hp. by rewrite Hp, <- app_assoc.
Qed.

(** *** Pieces of the answer around a malformed line *)

Lemma query_for_lines_app l1 l2 d :
  for_lines (l1 ++ l2) d = (for_lines l1 ;;; for_lines l2) d.
Proof.
  revert d. induction l1 as [| line l1 IH]; intros d; [done |].
  cbn [for_lines app]. unfold bind.
  destruct (step line d) as [[[] | e] d']; [| done].
  rewrite IH. reflexivity.
Qed.

Lemma query_read_loop_lines chunks d :
  read_loop chunks d =
    for_lines (flat_map (fun value => lines_of (utf8_decode value)) chunks) d.
Proof.
  revert d. induction chunks as [| value rest IH]; intros d; [done |].
  cbn [read_loop flat_map]. rewrite query_for_lines_app. unfold bind.
  destruct (for_lines (lines_of (utf8_decode value)) d) as [[[] | e] d']; [apply IH | done].
Qed.

Lemma joined_app texts1 texts2 :
  joined (texts1 ++ texts2) = joined texts1 ++ joined texts2.
Proof.
  induction texts1 as [| text texts1 IH]; [done |].
  cbn [app]. unfold joined in *. cbn [foldr]. by rewrite IH, string_app_assoc.
Qed.

Lemma generating_app texts1 texts2 :
  generating (texts1 ++ texts2) = (generating texts1 ++ generating texts2)%list.
Proof. apply map_app. Qed.

Lemma lines_around (before after : list (list Byte.byte)) c l1 bad l2 :
  lines_of (utf8_decode c) = (l1 ++ bad :: l2)%list →
  flat_map (fun value => lines_of (utf8_decode value)) (before ++ c :: after) =
    ((flat_map (fun value => lines_of (utf8_decode value)) before ++ l1) ++
       bad :: (l2 ++ flat_map (fun value => lines_of (utf8_decode value)) after))%list.
Proof.
  intros Hc. rewrite flat_map_app. cbn [flat_map]. rewrite Hc.
  by rewrite <- !app_assoc.
Qed.

Lemma falsy_not_complete status :
  truthy status = false → strict_eq_str status "complete" = false.
Proof.
  destruct status as [| | b | lit | text | items | fields]; try done.
  cbn. by destruct (String.eqb_spec text "") as [-> |].
Qed.

Lemma query_step_piece line text d :
  answer_piece line text →
  step line d =
    (Ok tt, Decoder (Vars (fullAnswer (locals d) ++ text) (originalLang (locals d)))
              (ui d ++ [UiStatus "Generating answer..."])%list
              (console d) (parsed d ++ [line])%list).
Proof.
  intros (data & error & lang & status & Hparse & Herror & Hfalsy & Hlang & Hnone &
          Hstatus & Hquiet & Hpiece & Hne).
  apply String.eqb_neq in Hne.
  unfold step, line_body, try_catch, bind at 1, parse_line. rewrite Hparse.
  unfold dispatch, field. run. rewrite Herror. cbn [fst snd]. rewrite Hfalsy.
  rewrite Hlang, Hnone. cbn [fst snd]. rewrite Hstatus, Hquiet. cbn [fst snd].
  rewrite Hpiece. cbn [truthy]. rewrite Hne. cbn [negb fst snd].
  rewrite (falsy_not_complete status Hquiet). reflexivity.
Qed.

Lemma query_for_lines_pieces lines texts d :
  Forall2 answer_piece lines texts →
  for_lines lines d =
    (Ok tt, Decoder (Vars (fullAnswer (locals d) ++ joined texts) (originalLang (locals d)))
              (ui d ++ generating texts)%list
              (console d) (parsed d ++ lines)%list).
Proof.
  intros Hall. revert d.
  induction Hall as [| line text lines texts Hline _ IH]; intros d.
  - destruct d as [[answer lang] shown logged texts].
    cbn. by rewrite string_app_nil_r, !app_nil_r.
  - cbn [for_lines]. unfold bind. rewrite (query_step_piece line text d Hline).
    rewrite IH. cbn [locals ui console parsed fullAnswer originalLang].
    unfold joined, generating. cbn [foldr map].
    by rewrite string_app_assoc, <- !app_assoc.
Qed.

Lemma query_pieces_around l1 l2 texts1 texts2 bad e d :
  JSON_parse bad = Thrown e →
  Forall2 answer_piece l1 texts1 → Forall2 answer_piece l2 texts2 →
  for_lines (l1 ++ bad :: l2) d =
    (Ok tt, Decoder (Vars (fullAnswer (locals d) ++ joined (texts1 ++ texts2))
                          (originalLang (locals d)))
              (ui d ++ generating (texts1 ++ texts2))%list
              (console d ++ [("Error parsing response chunk:", e)])%list
              (parsed d ++ l1 ++ bad :: l2)%list).
Proof.
  intros Hbad Hfirst Hsecond. rewrite query_for_lines_app. unfold bind.
  rewrite (query_for_lines_pieces l1 texts1 d Hfirst). cbn [for_lines]. unfold bind.
  rewrite (query_step_rejected bad e _ Hbad).
  rewrite (query_for_lines_pieces l2 texts2 _ Hsecond).
  cbn [locals ui console parsed fullAnswer originalLang].
  rewrite joined_app, generating_app, string_app_assoc.
  by rewrite <- !app_assoc.
Qed.
End QueryFacts.

Section ChatFacts.
Context `{JSEngine}.
Import Chat.

Lemma chat_line_body_respects line : respects (line_body line).
Proof. unfold line_body, dispatch, addChatMessage, updateBotMessage. walk. Qed.

Lemma chat_step_respects line : respects (step line).
Proof.
  apply respects_try_catch; [apply chat_line_body_respects | intros ?; walk].
Qed.

Lemma chat_step_never_throws line d : ∃ stop, fst (step line d) = Ok stop.
Proof.
  unfold step, try_catch, console_error, act, bind, ret.
  destruct (line_body line d) as [[stop | e] d']; eauto.
Qed.

Lemma chat_for_lines_respects lines : respects (for_lines lines).
Proof.
  induction lines as [| line rest IH]; cbn [for_lines]; [apply respects_ret |].
  apply respects_bind; [apply chat_step_respects |].
  intros []; [apply respects_ret | exact IH].
Qed.

Lemma chat_for_lines_never_throws lines d : fst (for_lines lines d) = Ok tt.
Proof.
  revert d. induction lines as [| line rest IH]; intros d; [done |].
  cbn [for_lines]. unfold bind.
  destruct (chat_step_never_throws line d) as [stop Hs].
  destruct (step line d) as [[[] | e] d']; [done | apply IH | discriminate].
Qed.

Lemma chat_read_loop_respects chunks : respects (read_loop chunks).
Proof.
  induction chunks as [| value rest IH]; cbn [read_loop]; [apply respects_ret |].
  apply respects_bind; [apply chat_for_lines_respects | by intros _].
Qed.

Lemma chat_read_loop_never_throws chunks d : fst (read_loop chunks d) = Ok tt.
Proof.
  revert d. induction chunks as [| value rest IH]; intros d; [done |].
  cbn [read_loop]. unfold bind.
  pose proof (chat_for_lines_never_throws (lines_of (utf8_decode value)) d) as Hs.
  destruct (for_lines _ d) as [[[] | e] d']; [apply IH | discriminate].
Qed.

(** A line that is not JSON changes neither the page nor the variables
    and does not end the loop. *)
Lemma chat_step_rejected bad e d :
  JSON_parse bad = Thrown e →
  step bad d =
    (Ok false, Decoder (locals d) (ui d)
                 (console d ++ [("Error parsing response chunk:", e)])%list
                 (parsed d ++ [bad])%list).
Proof.
  intros Hbad. unfold step, try_catch, line_body.
  by rewrite (parse_line_rejected bad e _ d Hbad).
Qed.

Lemma chat_for_lines_skips bad e l1 l2 d1 d2 :
  JSON_parse bad = Thrown e → same_page d1 d2 →
  same_outcome (for_lines (l1 ++ bad :: l2) d1) (for_lines (l1 ++ l2) d2).
Proof.
  intros Hbad. revert d1 d2. induction l1 as [| line l1 IH]; intros d1 d2 Hd.
  - cbn [app for_lines]. unfold bind at 1.
    rewrite (chat_step_rejected bad e d1 Hbad).
    apply chat_for_lines_respects. destruct Hd. by split.
  - cbn [app for_lines].
    pose proof (chat_step_respects line d1 d2 Hd) as [Hr Hp].
    unfold bind.
    destruct (step line d1) as [[[] | e1] d1'], (step line d2) as [[[] | e2] d2'];
      simpl in Hr; try discriminate.
    + split; [done | exact Hp].
    + by apply IH.
    + injection Hr as ->. by split.
Qed.

Lemma chat_read_loop_skips bad e l1 l2 before after c c' d1 d2 :
  JSON_parse bad = Thrown e →
  lines_of (utf8_decode c) = (l1 ++ bad :: l2)%list →
  lines_of (utf8_decode c') = (l1 ++ l2)%list →
  same_page d1 d2 →
  same_outcome (read_loop (before ++ c :: after) d1)
               (read_loop (before ++ c' :: after) d2).
Proof.
  intros Hbad Hc Hc'. revert d1 d2.
  induction before as [| value before IH]; intros d1 d2 Hd; cbn [app read_loop].
  - apply same_outcome_bind; [| intros _; apply chat_read_loop_respects].
    rewrite Hc, Hc'. by eapply chat_for_lines_skips.
  - pose proof (chat_for_lines_respects (lines_of (utf8_decode value)) d1 d2 Hd)
      as [Hr Hp].
    unfold bind.
    destruct (for_lines _ d1) as [[[] | e1] d1'], (for_lines _ d2) as [[[] | e2] d2'];
      simpl in Hr; try discriminate.
    + by apply IH.
    + by split.
Qed.

Lemma chat_dispatch_parses_nothing data : parses_nothing (dispatch data).
Proof. unfold dispatch, addChatMessage, updateBotMessage. walk. Qed.

Lemma chat_step_parsed line d : parsed (snd (step line d)) = (parsed d ++ [line])%list.
Proof.
  unfold step, line_body, try_catch, bind at 1, parse_line.
  destruct (JSON_parse line) as [data | e]; [| done].
  pose proof (chat_dispatch_parses_nothing data
                (Decoder (locals d) (ui d) (console d) (parsed d ++ [line])%list)) as Hrest.
  by destruct (dispatch data _) as [[stop | e] d'].
Qed.

(** The lines of a chunk are parsed in order, up to the first [break]. *)
Lemma chat_for_lines_parsed lines d :
  ∃ done_, done_ `prefix_of` lines ∧
           parsed (snd (for_lines lines d)) = (parsed d ++ done_)%list.
Proof.
  revert d. induction lines as [| line rest IH]; intros d.
  - exists []. split; [done |]. by rewrite app_nil_r.
  - cbn [for_lines]. unfold bind.
    destruct (chat_step_never_throws line d) as [stop Hs].
    pose proof (chat_step_parsed line d) as Hp.
    destruct (step line d) as [[[] | e] d']; [| | discriminate]; cbn [snd] in Hp.
    + exists [line]. split; [| done]. by apply prefix_cons, prefix_nil.
    + destruct (IH d') as (done_ & Hpre & Hrest).
      exists (line :: done_). split; [by apply prefix_cons |].
      by rewrite Hrest, Hp, <- app_assoc.
Qed.

Lemma chat_read_loop_parsed chunks d :
  ∃ per_chunk,
    Forall2 (fun done_ value => done_ `prefix_of` lines_of (utf8_decode value))
            per_chunk chunks ∧
    parsed (snd (read_loop chunks d)) = (parsed d ++ concat per_chunk)%list.
Proof.
  revert d. induction chunks as [| value rest IH]; intros d.
  - exists []. split; [constructor |]. by rewrite app_nil_r.
  - cbn [read_loop]. unfold bind.
    pose proof (chat_for_lines_never_throws (lines_of (utf8_decode value)) d) as Hs.
    destruct (chat_for_lines_parsed (lines_of (utf8_decode value)) d)
      as (done_ & Hpre & Hp).
    destruct (for_lines _ d) as [[[] | e] d']; [| discriminate]. cbn [snd] in Hp.
    destruct (IH d') as (per_chunk & Hall & Hrest).
    exists (done_ :: per_chunk). split; [by constructor |].
    by rewrite Hrest, Hp, <- app_assoc.
Qed.

(** *** Pieces of the reply around a malformed line *)

Lemma typed_app element so_far texts1 texts2 :
  typed element so_far (texts1 ++ texts2) =
    (typed element so_far texts1 ++
     typed (match texts1 with [] => element | _ => true end)
           (so_far ++ joined texts1) texts2)%list.
Proof.
  revert element so_far. induction texts1 as [| text texts1 IH]; intros element so_far.
  - cbn. by rewrite string_app_nil_r.
  - cbn [app typed]. rewrite IH. unfold joined. cbn [foldr].
    rewrite <- !app_assoc, string_app_assoc. f_equal. f_equal. f_equal.
    by destruct texts1.
Qed.

Lemma chat_step_piece line text so_far element shown logged texts :
  reply_piece line text →
  step line (Decoder (Vars (VStr so_far) element true) shown logged texts) =
    (Ok false,
     Decoder (Vars (VStr (so_far ++ text)) true true)
       (shown ++ typed element so_far [text])%list logged (texts ++ [line])%list).
Proof.
  intros (data & Hparse & Hpiece & Hne). apply String.eqb_neq in Hne.
  unfold step, try_catch, line_body, bind at 1, parse_line.
  rewrite Hparse. unfold dispatch, field, addChatMessage, updateBotMessage. run.
  rewrite Hpiece. cbn [fst snd truthy]. rewrite Hne. cbn [negb].
  unfold show, get_locals, set_locals. run.
  destruct element; cbn; by rewrite <- ?app_assoc.
Qed.

Lemma chat_piece_never_breaks line text d :
  reply_piece line text → fst (step line d) = Ok false.
Proof.
  intros (data & Hparse & Hpiece & Hne). apply String.eqb_neq in Hne.
  unfold step, try_catch, line_body, bind at 1, parse_line.
  rewrite Hparse. unfold dispatch, field, addChatMessage, updateBotMessage. run.
  rewrite Hpiece. cbn [fst snd truthy]. rewrite Hne. cbn [negb].
  unfold show, get_locals, set_locals, console_error. run.
  by destruct d as [[reply [] []] shown logged texts].
Qed.

Lemma chat_pieces_never_break lines texts :
  Forall2 reply_piece lines texts →
  Forall (fun line => ∀ d, fst (step line d) = Ok false) lines.
Proof.
  induction 1 as [| line text lines texts Hline _ IH]; constructor; [| done].
  intros d. by eapply chat_piece_never_breaks.
Qed.

Lemma chat_for_lines_app l1 l2 d :
  Forall (fun line => ∀ d, fst (step line d) = Ok false) l1 →
  for_lines (l1 ++ l2) d = (for_lines l1 ;;; for_lines l2) d.
Proof.
  intros Hall. revert d.
  induction Hall as [| line l1 Hline _ IH]; intros d; [done |].
  cbn [for_lines app]. unfold bind. specialize (Hline d).
  destruct (step line d) as [[stop | e] d']; [| done].
  cbn in Hline. injection Hline as ->. rewrite IH. reflexivity.
Qed.

Lemma chat_read_loop_lines chunks d :
  Forall (fun line => ∀ d, fst (step line d) = Ok false)
         (flat_map (fun value => lines_of (utf8_decode value)) chunks) →
  read_loop chunks d =
    for_lines (flat_map (fun value => lines_of (utf8_decode value)) chunks) d.
Proof.
  revert d. induction chunks as [| value rest IH]; intros d Hall; [done |].
  cbn [read_loop flat_map] in *. apply Forall_app in Hall as [Hfirst Hrest].
  rewrite (chat_for_lines_app _ _ d Hfirst). unfold bind.
  destruct (for_lines (lines_of (utf8_decode value)) d) as [[[] | e] d']; [| done].
  by apply IH.
Qed.

Lemma chat_for_lines_pieces lines texts so_far element shown logged parsed_ :
  Forall2 reply_piece lines texts →
  for_lines lines (Decoder (Vars (VStr so_far) element true) shown logged parsed_) =
    (Ok tt,
     Decoder (Vars (VStr (so_far ++ joined texts))
                   (match texts with [] => element | _ => true end) true)
       (shown ++ typed element so_far texts)%list logged (parsed_ ++ lines)%list).
Proof.
  intros Hall. revert so_far element shown parsed_.
  induction Hall as [| line text lines texts Hline _ IH];
    intros so_far element shown parsed_.
  - cbn. by rewrite string_app_nil_r, !app_nil_r.
  - cbn [for_lines]. unfold bind at 1.
    rewrite (chat_step_piece line text so_far element shown logged parsed_ Hline).
    rewrite IH. unfold joined. cbn [foldr typed].
    rewrite string_app_assoc, <- !app_assoc. do 3 f_equal.
    by destruct texts.
Qed.

Lemma chat_pieces_around l1 l2 texts1 texts2 bad e so_far element shown logged parsed_ :
  JSON_parse bad = Thrown e →
  Forall2 reply_piece l1 texts1 → Forall2 reply_piece l2 texts2 →
  for_lines (l1 ++ bad :: l2)
      (Decoder (Vars (VStr so_far) element true) shown logged parsed_) =
    (Ok tt,
     Decoder (Vars (VStr (so_far ++ joined (texts1 ++ texts2)))
                   (match (texts1 ++ texts2)%list with [] => element | _ => true end) true)
       (shown ++ typed element so_far (texts1 ++ texts2))%list
       (logged ++ [("Error parsing response chunk:", e)])%list
       (parsed_ ++ l1 ++ bad :: l2)%list).
Proof.
  intros Hbad Hfirst Hsecond.
  rewrite (chat_for_lines_app _ _ _ (chat_pieces_never_break _ _ Hfirst)). unfold bind at 1.
  rewrite (chat_for_lines_pieces l1 texts1 so_far element shown logged parsed_ Hfirst).
  cbn [for_lines]. unfold bind at 1. rewrite (chat_step_rejected bad e _ Hbad).
  cbn [locals ui console parsed].
  rewrite (chat_for_lines_pieces l2 texts2 _ _ _ _ _ Hsecond).
  rewrite joined_app, typed_app, string_app_assoc, <- !app_assoc.
  do 3 f_equal. by destruct texts1, texts2.
Qed.
End ChatFacts.

Section StreamClaims.
Context `{JSEngine}.

(** C9: a line that [JSON.parse] rejects is caught and skipped.  In both
    loops the stream is read to its end without an error, and the page
    and the variables end up exactly as they do for the same stream with
    that one line taken out: every other line, before and after it, has
    its effect.  In particular, when the other lines of the stream bring
    pieces of the answer, every piece, before and after the malformed
    line, is appended to the answer and shown, in the order of the
    stream, and the console holds one more entry: the error of the
    malformed line. *)
Theorem malformed_line_is_skipped
        (before after : list (list Byte.byte)) (c c' : list Byte.byte)
        (l1 l2 : list string) (bad : string) (e : jserror) :
  JSON_parse bad = Thrown e →
  lines_of (utf8_decode c) = (l1 ++ bad :: l2)%list →
  lines_of (utf8_decode c') = (l1 ++ l2)%list →
  (∀ d, fst (Query.read_loop (before ++ c :: after) d) = Ok tt ∧
        same_page (snd (Query.read_loop (before ++ c :: after) d))
                  (snd (Query.read_loop (before ++ c' :: after) d))) ∧
  (∀ d, fst (Chat.read_loop (before ++ c :: after) d) = Ok tt ∧
        same_page (snd (Chat.read_loop (before ++ c :: after) d))
                  (snd (Chat.read_loop (before ++ c' :: after) d))) ∧
  (∀ texts1 texts2 d,
     Forall2 answer_piece
       (flat_map (fun value => lines_of (utf8_decode value)) before ++ l1)%list texts1 →
     Forall2 answer_piece
       (l2 ++ flat_map (fun value => lines_of (utf8_decode value)) after)%list texts2 →
     let d' := snd (Query.read_loop (before ++ c :: after) d) in
     Query.fullAnswer (locals d') =
       Query.fullAnswer (locals d) ++ joined (texts1 ++ texts2) ∧
     ui d' = (ui d ++ generating (texts1 ++ texts2))%list ∧
     console d' = (console d ++ [("Error parsing response chunk:", e)])%list) ∧
  (∀ texts1 texts2 so_far d,
     Forall2 reply_piece
       (flat_map (fun value => lines_of (utf8_decode value)) before ++ l1)%list texts1 →
     Forall2 reply_piece
       (l2 ++ flat_map (fun value => lines_of (utf8_decode value)) after)%list texts2 →
     Chat.botResponse (locals d) = VStr so_far →
     Chat.has_chat_messages (locals d) = true →
     let d' := snd (Chat.read_loop (before ++ c :: after) d) in
     Chat.botResponse (locals d') = VStr (so_far ++ joined (texts1 ++ texts2)) ∧
     ui d' =
       (ui d ++ typed (Chat.botMessageElement (locals d)) so_far (texts1 ++ texts2))%list ∧
     console d' = (console d ++ [("Error parsing response chunk:", e)])%list).
Proof.
  intros Hbad Hc Hc'. split; [| split; [| split]].
  - intros d. split; [apply query_read_loop_never_throws |].
    eapply query_read_loop_skips; eauto using same_page_refl.
  - intros d. split; [apply chat_read_loop_never_throws |].
    eapply chat_read_loop_skips; eauto using same_page_refl.
  - intros texts1 texts2 d Hfirst Hsecond. cbv zeta.
    rewrite query_read_loop_lines, (lines_around before after c l1 bad l2 Hc).
    by rewrite (query_pieces_around _ _ texts1 texts2 bad e d Hbad Hfirst Hsecond).
  - intros texts1 texts2 so_far d Hfirst Hsecond Hreply Hcontainer. cbv zeta.
    destruct d as [[reply element container] shown logged texts].
    cbn in Hreply, Hcontainer. subst reply container.
    rewrite chat_read_loop_lines.
    + rewrite (lines_around before after c l1 bad l2 Hc).
      by rewrite (chat_pieces_around _ _ texts1 texts2 bad e so_far element shown logged
                    texts Hbad Hfirst Hsecond).
    + rewrite (lines_around before after c l1 bad l2 Hc).
      apply Forall_app. split; [by eapply chat_pieces_never_break |].
      constructor; [| by eapply chat_pieces_never_break].
      intros d. by rewrite (chat_step_rejected bad e d Hbad).
Qed.

End StreamClaims.

(** *** The loops on examples *)

Section StreamExamples.
Import Reference.
#[local] Existing Instance engine.

Lemma malformed_line_is_skipped_witness :
  (@JSON_parse engine cut_short = Thrown syntax_error ∧
   @lines_of engine (@utf8_decode engine with_bad_line) = ([hello] ++ cut_short :: [world_])%list ∧
   @lines_of engine (@utf8_decode engine without_bad_line) = ([hello] ++ [world_])%list) ∧
  (∀ d, fst (@Query.read_loop engine ([] ++ with_bad_line :: []) d) = Ok tt ∧
        same_page (snd (@Query.read_loop engine ([] ++ with_bad_line :: []) d))
                  (snd (@Query.read_loop engine ([] ++ without_bad_line :: []) d))) ∧
  (∀ d, fst (@Chat.read_loop engine ([] ++ with_bad_line :: []) d) = Ok tt ∧
        same_page (snd (@Chat.read_loop engine ([] ++ with_bad_line :: []) d))
                  (snd (@Chat.read_loop engine ([] ++ without_bad_line :: []) d))) ∧
  (let d' := snd (@Query.read_loop engine ([] ++ answer_with_bad_line :: [])
                    Query.initial) in
   Query.fullAnswer (locals d') = "Hello world" ∧
   ui d' = [UiStatus "Initializing..."; UiStatus "Generating answer...";
            UiStatus "Generating answer..."] ∧
   console d' = [("Error parsing response chunk:", syntax_error)]) ∧
  (let d' := snd (@Chat.read_loop engine ([] ++ with_bad_line :: [])
                    (Chat.initial true)) in
   Chat.botResponse (locals d') = VStr "Hello world" ∧
   ui d' = [UiHideTyping; UiAddMessage "bot" ""; UiUpdateMessage "Hello ";
            UiHideTyping; UiUpdateMessage "Hello world"] ∧
   console d' = [("Error parsing response chunk:", syntax_error)]).
Proof.
  split.
  { split; [vm_compute; reflexivity |]. split; vm_compute; reflexivity. }
  destruct (@malformed_line_is_skipped engine [] [] with_bad_line without_bad_line
              [hello] [world_] cut_short syntax_error)
    as (Hquery & Hchat & _ & Hreply); [vm_compute; reflexivity .. |].
  destruct (@malformed_line_is_skipped engine [] [] answer_with_bad_line
              answer_without_bad_line [piece_hello] [piece_world] cut_short syntax_error)
    as (_ & _ & Hanswer & _); [vm_compute; reflexivity .. |].
  split; [exact Hquery |]. split; [exact Hchat |]. split.
  - apply (Hanswer ["Hello "] ["world"] Query.initial).
    + repeat constructor.
      exists (VObj [("generated_answer_chunk", VStr "Hello ")]), VUndef, VUndef, VUndef.
      repeat split; first [vm_compute; reflexivity | discriminate].
    + repeat constructor.
      exists (VObj [("generated_answer_chunk", VStr "world")]), VUndef, VUndef, VUndef.
      repeat split; first [vm_compute; reflexivity | discriminate].
  - apply (Hreply ["Hello "] ["world"] "" (Chat.initial true)).
    + repeat constructor. exists (VObj [("response_chunk", VStr "Hello ")]).
      repeat split; first [vm_compute; reflexivity | discriminate].
    + repeat constructor. exists (VObj [("response_chunk", VStr "world")]).
      repeat split; first [vm_compute; reflexivity | discriminate].
    + reflexivity.
    + reflexivity.
Defined.

(** On the chat window the two good lines around the bad one both reach
    the page. *)
Example bad_line_between_two_good_ones :
  let after := snd (@Chat.read_loop engine [with_bad_line] (Chat.initial true)) in
  Chat.botResponse (locals after) = VStr "Hello world" ∧
  ui after = [UiHideTyping; UiAddMessage "bot" ""; UiUpdateMessage "Hello ";
              UiHideTyping; UiUpdateMessage "Hello world"] ∧
  console after = [("Error parsing response chunk:", syntax_error)].
Proof. repeat split; vm_compute; reflexivity. Qed.

(** An envelope cut in two by the transport is lost: each half is parsed
    on its own and rejected, and the answer stays empty, while the same
    bytes in one chunk give the answer. *)
Example split_envelope_is_not_reassembled :
  let whole := line (envelope "generated_answer_chunk" "Hello") in
  let first_half := "{" ++ quoted "generated_answer_chunk" ++ ":" in
  let second_half := line (quoted "Hello" ++ "}") in
  (first_half ++ second_half = whole) ∧
  Query.fullAnswer
    (locals (snd (@Query.read_loop engine [bytes whole] Query.initial))) = "Hello" ∧
  Query.fullAnswer
    (locals (snd (@Query.read_loop engine [bytes first_half; bytes second_half]
                    Query.initial))) = "" ∧
  parsed (snd (@Query.read_loop engine [bytes first_half; bytes second_half]
                 Query.initial)) = [first_half; quoted "Hello" ++ "}"].
Proof. repeat split; vm_compute; reflexivity. Qed.

(** The stream of the specification: status, two fragments, completion. *)
Example hello_world_stream :
  let chunks :=
    [bytes (line (envelope "status" "thinking"));
     bytes (line (envelope "generated_answer_chunk" "Hello ")
            ++ line (envelope "generated_answer_chunk" "world"));
     bytes (line ("{" ++ pair_text "status" "complete" ++ ","
                      ++ pair_text "generated_answer" "Hello world" ++ "}"))] in
  let after := snd (@Query.handle_stream engine chunks Query.initial) in
  Query.fullAnswer (locals after) = "Hello world" ∧
  filter (fun e => is_answer e = true) (ui after)
    = [UiAnswer "Hello world" None ["hi"; "te"]].
Proof. split; vm_compute; reflexivity. Qed.

(** C8 fails on the code.  The stream is an error envelope followed, in
    the next chunk, by a text fragment.  In the query form the [Error]
    thrown for the envelope is caught by the [catch] of the same line,
    which logs it and goes on: nothing is shown to the user and the
    fragment is appended.  In the chat window the error is shown, but
    [break] leaves only the [for] over the lines of that chunk: the next
    chunk is read and its fragment is appended. *)
Theorem error_envelope_does_not_stop_the_stream :
  let failed := bytes (line (envelope "error" "boom")) in
  let query := snd (@Query.handle_stream engine
                      [failed; bytes (line (envelope "generated_answer_chunk" "late"))]
                      Query.initial) in
  let chat := snd (@Chat.read_loop engine
                     [failed; bytes (line (envelope "response_chunk" "late"))]
                     (Chat.initial true)) in
  (Query.fullAnswer (locals query) = "late" ∧
   ui query = [UiStatus "Initializing..."; UiStatus "Generating answer..."] ∧
   console query = [("Error parsing response chunk:", JsError "Error" "boom")]) ∧
  (Chat.botResponse (locals chat) = VStr "late" ∧
   ui chat = [UiHideTyping; UiAddMessage "bot" "Sorry, I encountered an error: boom";
              UiHideTyping; UiAddMessage "bot" ""; UiUpdateMessage "late"]).
Proof. repeat split; vm_compute; reflexivity. Qed.
End StreamExamples.

(* ===================================================================== *)
(** * Further properties of the code *)
(* ===================================================================== *)

(** ** [APIConfig]: the base address, the refresh, the request *)

Lemma replace_first_absent pat by_ s :
  includes s pat = false → replace_first pat by_ s = s.
Proof.
  induction s as [| c rest IH]; cbn [includes replace_first].
  - by destruct (String.prefix pat "").
  - destruct (String.prefix pat (String c rest)); [done |].
    intros Hrest. by rewrite IH.
Qed.

Section MoreConfigFacts.
Context `{JSEngine} `{Environment}.
Import APIConfig.

(** X1: away from the loopback hosts, an origin that does not contain
    [:8080] is taken as it is: every endpoint is resolved against the
    page's own origin. *)
Theorem getURL_without_frontend_port endpoint :
  hostname ≠ "localhost" → hostname ≠ "127.0.0.1" →
  includes origin ":8080" = false →
  getURL endpoint = origin ++ endpoint.
Proof.
  intros Hl Hi Hport. unfold getURL, baseURL, isDevelopment.
  apply String.eqb_neq in Hl, Hi. rewrite Hl, Hi. cbn [orb].
  by rewrite replace_first_absent.
Qed.

Lemma count_setItem p k v w : count p (trace (setItem k v w)) = count p (trace w).
Proof. reflexivity. Qed.

(** What [refreshToken] can and cannot do. *)
Lemma refreshToken_effect w :
  ∃ b w', refreshToken w = (Ok b, w') ∧
          quietly w w' ∧
          same_but_access_token w w' ∧
          (b = false → localStorage w' = localStorage w) ∧
          (count is_fetch (trace w) ≤ count is_fetch (trace w')
             ≤ count is_fetch (trace w) + 1)%nat ∧
          count is_navigate (trace w') = count is_navigate (trace w).
Proof.
  destruct (refreshToken_spec w) as (b & w' & Hrun & Hq & Hfalse).
  exists b, w'. split; [done |]. split; [done |].
  assert (same_but_access_token w w' ∧
          (count is_fetch (trace w) ≤ count is_fetch (trace w')
             ≤ count is_fetch (trace w) + 1)%nat ∧
          count is_navigate (trace w') = count is_navigate (trace w)) as (? & ? & ?);
    [| done].
  destruct (localStorage w !! "refresh_token") as [token |] eqn:Htok.
  2: { rewrite refreshToken_absent in Hrun by auto. injection Hrun as <- <-.
       repeat split; try lia; try done. }
  destruct (decide (token = "")) as [-> | Hne].
  { rewrite refreshToken_absent in Hrun by auto. injection Hrun as <- <-.
    repeat split; try lia; try done. }
  rewrite (refreshToken_call _ _ Htok Hne) in Hrun. cbv zeta in Hrun.
  destruct (net _) as [e | response].
  { injection Hrun as <- <-. rewrite !count_emit. simpl.
    repeat split; try lia; try done. }
  destruct (ok response).
  2: { injection Hrun as <- <-. rewrite !count_emit. simpl.
       repeat split; try lia; try done. }
  destruct (JSON_parse _) as [data | e].
  2: { injection Hrun as <- <-. rewrite !count_emit. simpl.
       repeat split; try lia; try done. }
  destruct (get_prop _ _) as [tok | e]; injection Hrun as <- <-;
    rewrite ?count_setItem, !count_emit; simpl.
  - repeat split; try lia.
    intros k Hk. simpl. by rewrite lookup_insert_ne.
  - repeat split; try lia; try done.
Qed.

(** X2: [refreshToken] never throws: a missing token, a network failure,
    an answer outside the success range and a body that is not JSON all
    give [false] with the store as it was; it makes at most one call, and
    whatever it answers it leaves every key of the store other than
    [access_token] (the refresh token included) as it was. *)
Theorem refreshToken_never_throws w :
  ∃ b w', refreshToken w = (Ok b, w') ∧
          same_but_access_token w w' ∧
          (b = false → localStorage w' = localStorage w) ∧
          (count is_fetch (trace w') ≤ count is_fetch (trace w) + 1)%nat.
Proof.
  destruct (refreshToken_effect w) as (b & w' & ? & ? & ? & ? & ? & ?).
  exists b, w'. repeat split; try lia; try done.
Qed.

Lemma request_effect endpoint options w :
  let out := request endpoint options w in
  same_but_access_token w (snd out) ∧
  (count is_fetch (trace w) < count is_fetch (trace (snd out))
     ≤ count is_fetch (trace w) + 3)%nat ∧
  count is_navigate (trace (snd out)) =
    (count is_navigate (trace w) + (if is_undefined (fst out) then 1 else 0))%nat.
Proof.
  cbv zeta. rewrite request_unfold. cbv zeta. set (w1 := emit _ w).
  assert (count is_fetch (trace w1) = count is_fetch (trace w) + 1)%nat as Hf1
    by (subst w1; by rewrite count_emit).
  assert (count is_navigate (trace w1) = count is_navigate (trace w)) as Hn1
    by (subst w1; rewrite count_emit; simpl; lia).
  assert (localStorage w1 = localStorage w) as Hs1 by done.
  clearbody w1.
  destruct (net (count is_fetch (trace w))) as [e | response]; cbn [fst snd].
  { rewrite !count_emit. simpl. repeat split; try lia.
    intros k Hk. simpl. by rewrite Hs1. }
  destruct (status response =? 401)%nat; cbn [fst snd].
  2: { simpl. repeat split; try lia. intros k Hk. by rewrite Hs1. }
  destruct (refreshToken_effect w1) as (b & w2 & -> & _ & Hs & _ & Hf2 & Hn2).
  assert (same_but_access_token w w2) as Hs'
    by (intros k Hk; by rewrite Hs, Hs1).
  destruct b.
  - destruct (net (count is_fetch (trace w2))); cbn [fst snd];
      rewrite !count_emit; simpl; (repeat split; try lia); exact Hs'.
  - cbn [fst snd]. rewrite !count_emit. simpl. repeat split; try lia. exact Hs'.
Qed.

(** X3: whatever the server answers, [request] makes at least one call
    and at most three, changes nothing in the store but, possibly, the
    access token, and leaves the offline queue and its persisted copy
    alone. *)
Theorem request_is_bounded endpoint options w :
  let w' := snd (request endpoint options w) in
  (count is_fetch (trace w) < count is_fetch (trace w')
     ≤ count is_fetch (trace w) + 3)%nat ∧
  same_but_access_token w w' ∧
  offlineQueue w' = offlineQueue w ∧ stored_queue w' = stored_queue w.
Proof.
  cbv zeta. destruct (request_effect endpoint options w) as (Hs & Hf & _).
  destruct (request endpoint options w) as [r w'] eqn:Hrun. cbn [snd] in *.
  apply request_quiet in Hrun as (Hq & Hst & _).
  split; [exact Hf |]. split; [exact Hs |]. by split.
Qed.

(** X4: [request] answers [undefined] exactly when it has sent the page
    to the login screen, and it does so at most once. *)
Theorem request_undefined_iff_redirected endpoint options w :
  let out := request endpoint options w in
  (fst out = Ok None →
   count is_navigate (trace (snd out)) = S (count is_navigate (trace w))) ∧
  (fst out ≠ Ok None →
   count is_navigate (trace (snd out)) = count is_navigate (trace w)).
Proof.
  cbv zeta. destruct (request_effect endpoint options w) as (_ & _ & Hn).
  cbv zeta in Hn. rewrite Hn. split; intros Hout.
  - rewrite Hout. simpl. lia.
  - destruct (fst (request endpoint options w)) as [[r |] | e]; simpl; [lia | done | lia].
Qed.
End MoreConfigFacts.

(** ** [APIClient]: one request *)

Section MoreClientFacts.
Context `{JSEngine} `{Environment}.
(* [APIClient] has a constant of the same name as the lemma *)
Local Abbreviation makeRequest_step := makeRequest_unfold.
Import APIConfig APIClient.

(** [refreshToken] and [request] log errors, call the network and send
    the page to the login screen; they do nothing of any other kind. *)
Lemma refreshToken_emits_only p w :
  (∀ url config, p (EvFetch url config) = false) →
  (∀ label e, p (EvConsoleError label e) = false) →
  count p (trace (snd (refreshToken w))) = count p (trace w).
Proof.
  intros Hfetch Herror.
  destruct (localStorage w !! "refresh_token") as [token |] eqn:Htok.
  2: { by rewrite refreshToken_absent by auto. }
  destruct (decide (token = "")) as [-> | Hne].
  { by rewrite refreshToken_absent by auto. }
  rewrite (refreshToken_call _ _ Htok Hne). cbv zeta.
  destruct (net _) as [e | response]; cbn [snd].
  { rewrite !count_emit, Hfetch, Herror. lia. }
  destruct (ok response); cbn [snd].
  2: { rewrite !count_emit, Hfetch. lia. }
  destruct (JSON_parse _) as [data | e]; cbn [snd].
  2: { rewrite !count_emit, Hfetch, Herror. lia. }
  destruct (get_prop _ _) as [tok | e]; cbn [snd];
    rewrite ?count_setItem, !count_emit, ?Hfetch, ?Herror; lia.
Qed.

Lemma request_emits_only p endpoint options w :
  (∀ url config, p (EvFetch url config) = false) →
  (∀ label e, p (EvConsoleError label e) = false) →
  (∀ href, p (EvNavigate href) = false) →
  count p (trace (snd (request endpoint options w))) = count p (trace w).
Proof.
  intros Hfetch Herror Hnav.
  rewrite request_unfold. cbv zeta. set (w1 := emit _ w).
  assert (count p (trace w1) = count p (trace w)) as H1
    by (subst w1; rewrite count_emit, Hfetch; lia).
  clearbody w1.
  destruct (net (count is_fetch (trace w))) as [e | response]; cbn [snd].
  { rewrite count_emit, Herror. lia. }
  destruct (status response =? 401)%nat; cbn [snd]; [| done].
  pose proof (refreshToken_emits_only p w1 Hfetch Herror) as H2.
  destruct (refreshToken_effect w1) as (b & w2 & Hrun & _).
  rewrite Hrun in H2 |- *. cbn [snd] in H2.
  destruct b; [destruct (net (count is_fetch (trace w2))) |]; cbn [snd];
    rewrite count_emit, ?Hfetch, ?Hnav; lia.
Qed.

(** One attempt: at most three calls, no waiting. *)
Lemma makeRequest_try_effect endpoint options w :
  let w' := snd (makeRequest_try endpoint options w) in
  (count is_fetch (trace w) < count is_fetch (trace w')
     ≤ count is_fetch (trace w) + 3)%nat ∧
  count is_delay (trace w') = count is_delay (trace w) ∧
  count is_odd_delay (trace w') = count is_odd_delay (trace w).
Proof.
  cbv zeta. rewrite makeRequest_try_unfold.
  destruct (request_effect endpoint options w) as (_ & Hf & _).
  pose proof (request_emits_only is_delay endpoint options w
                ltac:(done) ltac:(done) ltac:(done)) as Hd.
  pose proof (request_emits_only is_odd_delay endpoint options w
                ltac:(done) ltac:(done) ltac:(done)) as Ho.
  destruct (request endpoint options w) as [[[response |] | e] w1];
    cbn [snd] in *; [destruct (ok response) | |]; done.
Qed.

(** Logging the failure. *)
Lemma count_logged attempt error w :
  count is_delay (trace (logged attempt error w)) = count is_delay (trace w) ∧
  count is_odd_delay (trace (logged attempt error w)) = count is_odd_delay (trace w) ∧
  count is_fetch (trace (logged attempt error w)) = count is_fetch (trace w) ∧
  count is_onLine (trace (logged attempt error w)) = count is_onLine (trace w).
Proof.
  unfold logged. rewrite !count_emit.
  cbn [is_delay is_odd_delay is_fetch is_onLine]. repeat split; lia.
Qed.

(** Logging the failure and sitting out the delay. *)
Lemma count_before_retry attempt error w :
  count is_delay (trace (waited (logged attempt error w))) = S (count is_delay (trace w)) ∧
  count is_odd_delay (trace (waited (logged attempt error w))) = count is_odd_delay (trace w) ∧
  count is_fetch (trace (waited (logged attempt error w))) = count is_fetch (trace w) ∧
  count is_onLine (trace (waited (logged attempt error w))) = count is_onLine (trace w).
Proof.
  unfold waited, logged. rewrite !count_emit.
  cbn [is_delay is_odd_delay is_fetch is_onLine].
  change (negb (retryDelay =? retryDelay)%nat) with false. cbv iota.
  repeat split; lia.
Qed.

Lemma count_one p (e : event) : count p [e] = if p e then 1 else 0.
Proof. unfold count. rewrite filter_cons, filter_nil. by destruct (p e). Qed.

(** Giving up: one reading of [navigator.onLine], no call, no waiting. *)
Lemma count_stop_retrying endpoint options error w :
  let w' := snd (stop_retrying endpoint options error w) in
  count is_delay (trace w') = count is_delay (trace w) ∧
  count is_odd_delay (trace w') = count is_odd_delay (trace w) ∧
  count is_fetch (trace w') = count is_fetch (trace w) ∧
  count is_onLine (trace w') = S (count is_onLine (trace w)).
Proof.
  cbv zeta. rewrite stop_retrying_unfold. cbv zeta.
  destruct (onLine _); cbn [snd].
  - rewrite !count_emit. cbn [is_delay is_odd_delay is_fetch is_onLine].
    repeat split; lia.
  - unfold enqueued. cbn [trace]. rewrite !count_app, !count_emit, !count_one.
    cbn [is_delay is_odd_delay is_fetch is_onLine]. repeat split; lia.
Qed.

(** X5: answered in the success range at the first attempt, a request
    makes exactly one call and nothing else: no log, no delay, no reading
    of [navigator.onLine], store and queue as they were. *)
Theorem makeRequest_first_answer_ok endpoint options attempt w r :
  net (count is_fetch (trace w)) = Resolved r → ok r = true →
  makeRequest endpoint options attempt w =
    (Ok r, emit (EvFetch (getURL endpoint) (make_config options w)) w).
Proof.
  intros Hn Hok. rewrite makeRequest_step.
  by rewrite (attempt_ok endpoint options w w r eq_refl Hn Hok).
Qed.

(** X6: a response that [makeRequest] returns is always in the success
    range, and a call that returns has not touched the queue or its
    persisted copy, nor read [navigator.onLine] or the clock. *)
Theorem makeRequest_returns_ok_only endpoint options attempt w r w' :
  makeRequest endpoint options attempt w = (Ok r, w') →
  ok r = true ∧ quietly w w'.
Proof.
  revert r w'.
  apply (makeRequest_attempts endpoint options
           (fun attempt w out => ∀ r w', out = (Ok r, w') → ok r = true ∧ quietly w w')).
  - intros a w0 response w1 Htry r w' [= <- <-]. split.
    + rewrite makeRequest_try_unfold in Htry.
      destruct (request endpoint options w0) as [[[r |] | e] w2]; try discriminate.
      destruct (ok r) eqn:Hok; [| discriminate]. by injection Htry as <- _.
    + by eapply makeRequest_try_quiet.
  - intros a w0 error w1 Htry _ _ IH r w' Hout.
    destruct (IH r w' Hout) as [Hok Hq]. split; [done |].
    eapply quietly_trans; [by eapply makeRequest_try_quiet |].
    eapply quietly_trans; [apply quietly_logged |].
    eapply quietly_trans; [apply quietly_waited | exact Hq].
  - intros a w0 error w1 _ _ r w'. rewrite stop_retrying_unfold. cbv zeta.
    by destruct (onLine _).
Qed.

(** X7: retrying is bounded.  A call that starts at [attempt] waits at
    most [retryAttempts - attempt] times, never for anything but
    [retryDelay] = 1000 ms, makes at most three calls per attempt, and
    reads [navigator.onLine] at most once. *)
Theorem makeRequest_is_bounded endpoint options attempt w :
  let w' := snd (makeRequest endpoint options attempt w) in
  (count is_delay (trace w') ≤ count is_delay (trace w) + (retryAttempts - attempt))%nat ∧
  count is_odd_delay (trace w') = count is_odd_delay (trace w) ∧
  (count is_fetch (trace w) < count is_fetch (trace w')
     ≤ count is_fetch (trace w) + 3 * S (retryAttempts - attempt))%nat ∧
  (count is_onLine (trace w') ≤ count is_onLine (trace w) + 1)%nat.
Proof.
  cbv zeta.
  apply (makeRequest_attempts endpoint options
           (fun attempt w out =>
              (count is_delay (trace (snd out))
                 ≤ count is_delay (trace w) + (retryAttempts - attempt))%nat ∧
              count is_odd_delay (trace (snd out)) = count is_odd_delay (trace w) ∧
              (count is_fetch (trace w) < count is_fetch (trace (snd out))
                 ≤ count is_fetch (trace w) + 3 * S (retryAttempts - attempt))%nat ∧
              (count is_onLine (trace (snd out)) ≤ count is_onLine (trace w) + 1)%nat)).
  - intros a w0 response w1 Htry.
    pose proof (makeRequest_try_effect endpoint options w0) as (Hf & Hd & Ho).
    pose proof (quietly_count_onLine _ _ (makeRequest_try_quiet _ _ _ _ _ Htry)) as Hl.
    rewrite Htry in Hf, Hd, Ho. cbn [snd] in *. lia.
  - intros a w0 error w1 Htry Hlt _ (IHd & IHo & IHf & IHl).
    pose proof (makeRequest_try_effect endpoint options w0) as (Hf & Hd & Ho).
    pose proof (quietly_count_onLine _ _ (makeRequest_try_quiet _ _ _ _ _ Htry)) as Hl.
    rewrite Htry in Hf, Hd, Ho. cbn [snd] in Hf, Hd, Ho.
    destruct (count_before_retry a error w1) as (Cd & Co & Cf & Cl).
    rewrite Cd in IHd. rewrite Co in IHo. rewrite Cf in IHf. rewrite Cl in IHl.
    replace (retryAttempts - a) with (S (retryAttempts - (a + 1))) by lia. lia.
  - intros a w0 error w1 Htry _.
    pose proof (makeRequest_try_effect endpoint options w0) as (Hf & Hd & Ho).
    pose proof (quietly_count_onLine _ _ (makeRequest_try_quiet _ _ _ _ _ Htry)) as Hl.
    rewrite Htry in Hf, Hd, Ho. cbn [snd] in Hf, Hd, Ho.
    destruct (count_stop_retrying endpoint options error (logged a error w1))
      as (Cd & Co & Cf & Cl).
    destruct (count_logged a error w1) as (Ld & Lo & Lf & Ll).
    rewrite Ld in Cd. rewrite Lo in Co. rewrite Lf in Cf. rewrite Ll in Cl. lia.
Qed.

(** X8: a 401 whose refresh cannot even start (no refresh token in the
    store) does not reach the caller as an HTTP error.  [request] sends
    the page to the login screen and answers [undefined]; reading [.ok] of
    it throws a TypeError, and when the engine's message for it is not one
    that [shouldRetry] accepts and the client is online, that TypeError is
    what the caller gets, after a single call. *)
Theorem makeRequest_unauthorized_without_refresh endpoint options attempt w r :
  net (count is_fetch (trace w)) = Resolved r → status r = 401 →
  (localStorage w !! "refresh_token" = None ∨
   localStorage w !! "refresh_token" = Some "") →
  shouldRetry (type_error VUndef "ok") = false →
  onLine (count is_onLine (trace w)) = true →
  makeRequest endpoint options attempt w =
    (Thrown (type_error VUndef "ok"),
     World (localStorage w) (stored_queue w) (offlineQueue w)
       (trace w ++
          [EvFetch (getURL endpoint) (make_config options w);
           EvNavigate "/login";
           EvConsoleError ("API request failed (attempt " ++ dec attempt ++ "):")
             (type_error VUndef "ok");
           EvOnLine true])%list).
Proof.
  intros Hn H401 Htok Hshould Honline.
  rewrite makeRequest_step, makeRequest_try_unfold, request_unfold. cbv zeta.
  rewrite Hn, H401. cbn [Nat.eqb]. cbv iota.
  rewrite refreshToken_absent by done.
  rewrite Hshould, andb_false_r, stop_retrying_unfold. cbv zeta.
  unfold logged. rewrite !count_emit. cbn [is_onLine]. rewrite !Nat.add_0_r, Honline.
  unfold emit; cbn. by rewrite <- !app_assoc.
Qed.
End MoreClientFacts.

(** ** [APIClient]: the offline queue *)

Section MoreQueueFacts.
Context `{JSEngine} `{Environment}.
Import APIConfig APIClient.




(** X10: whether the client is online or not and however the requests
    end, a replay pass makes, for every entry of the persisted queue and in
    the order of the queue, a call to the entry's endpoint with the entry's
    options; it never throws. *)
Theorem processOfflineQueue_calls_every_entry w :
  ∃ w' evs calls,
    processOfflineQueue w = (Ok tt, w') ∧
    trace w' = (trace w ++ evs)%list ∧
    sublist calls evs ∧
    Forall2 call_for (persisted_queue w) calls.
Proof.
  destruct (replay_calls (persisted_queue w) w)
    as (w1 & evs & calls & Hreplay & Ht & Hsub & Hall).
  eexists _, evs, calls. unfold processOfflineQueue. run.
  fold (persisted_queue w). rewrite Hreplay. cbn. by repeat split.
Qed.
End MoreQueueFacts.

Section MoreClientExamples.
Import APIConfig APIClient Reference.
#[local] Existing Instance engine.

Lemma getURL_without_frontend_port_witness :
  @getURL production "/farms" = "https://farm.example/farms".
Proof.
  apply (@getURL_without_frontend_port production "/farms");
    [discriminate | discriminate | vm_compute; reflexivity].
Defined.

Lemma makeRequest_first_answer_ok_witness :
  fst (@makeRequest engine (answers [Resolved fine]) "/farms" ∅ 1 (fresh ∅)) = Ok fine.
Proof.
  rewrite (@makeRequest_first_answer_ok engine (answers [Resolved fine]) "/farms" ∅ 1
             (fresh ∅) fine); reflexivity.
Defined.

Lemma makeRequest_returns_ok_only_witness :
  let out := @makeRequest engine recovering "/users/me" ∅ 1 (fresh ∅) in
  out = (Ok fine, snd out) ∧ ok fine = true ∧ @quietly (fresh ∅) (snd out).
Proof.
  intros out.
  assert (out = (Ok fine, snd out)) as Hrun by (vm_compute; reflexivity).
  split; [exact Hrun |].
  exact (@makeRequest_returns_ok_only engine recovering "/users/me" ∅ 1 (fresh ∅)
           fine (snd out) Hrun).
Defined.

Lemma makeRequest_unauthorized_without_refresh_witness :
  fst (@makeRequest engine (answers [Resolved unauthorized]) "/users/me" ∅ 1 (fresh ∅))
    = Thrown (@type_error engine VUndef "ok").
Proof.
  rewrite (@makeRequest_unauthorized_without_refresh engine
             (answers [Resolved unauthorized]) "/users/me" ∅ 1 (fresh ∅) unauthorized);
    [reflexivity | reflexivity | reflexivity | left; reflexivity
     | vm_compute; reflexivity | reflexivity].
Defined.
End MoreClientExamples.

(** ** [APIClient]: signing in *)

Section LoginFacts.
Context `{JSEngine} `{Environment}.
Local Abbreviation makeRequest_step := makeRequest_unfold.
Import APIConfig APIClient.

(** Options that bring their own [headers] are sent as they are. *)
Lemma make_config_own_headers options own w :
  options !! "headers" = Some own → make_config options w = options.
Proof.
  intros Hown. unfold make_config. apply map_eq. intros k.
  rewrite lookup_union. destruct (decide (k = "headers")) as [-> | Hk].
  - by rewrite Hown, lookup_singleton_eq.
  - rewrite lookup_singleton_ne by done. by destruct (options !! k).
Qed.

Lemma login_config_sent username password w :
  make_config (login_config username password) w = login_config username password.
Proof. by apply (make_config_own_headers _ (VObj [])). Qed.

Lemma login_run username password w r data access refresh :
  net (count is_fetch (trace w)) = Resolved r → ok r = true →
  JSON_parse (body r) = Ok data →
  get_prop data "access_token" = Ok access →
  get_prop data "refresh_token" = Ok refresh →
  login username password w = (Ok data, signed username password access refresh w).
Proof.
  intros Hn Hok Hparse Haccess Hrefresh. unfold login, signed.
  unfold bind at 1. rewrite makeRequest_step.
  rewrite (attempt_ok _ _ w w r eq_refl Hn Hok), login_config_sent.
  unfold response_json. run. rewrite Hparse, Haccess. cbn. rewrite Hrefresh. cbn.
  by destruct (truthy refresh).
Qed.

Lemma signed_trace username password access refresh w :
  trace (signed username password access refresh w) =
    (trace w ++ [EvFetch (getURL endpoints_auth_login) (login_config username password)])%list.
Proof. unfold signed. cbv zeta. by destruct (truthy refresh). Qed.

Lemma signed_access_token username password access refresh w :
  localStorage (signed username password access refresh w) !! "access_token"
    = Some (to_string access).
Proof.
  unfold signed. cbv zeta. destruct (truthy refresh); cbn.
  - rewrite lookup_insert_ne by done. by rewrite lookup_insert_eq.
  - by rewrite lookup_insert_eq.
Qed.

(** X11: a login whose call is answered in the success range with an
    object stores the object's access token; it stores the refresh token
    when the answer has a truthy one and keeps the stored one otherwise;
    no other key of the store changes.  The one call it makes carries the
    login's own, empty, headers: no bearer token, whatever is stored. *)
Theorem login_stores_tokens username password w r data access refresh :
  net (count is_fetch (trace w)) = Resolved r → ok r = true →
  JSON_parse (body r) = Ok data →
  get_prop data "access_token" = Ok access →
  get_prop data "refresh_token" = Ok refresh →
  ∃ w', login username password w = (Ok data, w') ∧
        trace w' =
          (trace w ++ [EvFetch (getURL "/token") (login_config username password)])%list ∧
        login_config username password !! "headers" = Some (VObj []) ∧
        localStorage w' !! "access_token" = Some (to_string access) ∧
        localStorage w' !! "refresh_token" =
          (if truthy refresh then Some (to_string refresh)
           else localStorage w !! "refresh_token") ∧
        (∀ k, k ≠ "access_token" → k ≠ "refresh_token" →
              localStorage w' !! k = localStorage w !! k).
Proof.
  intros Hn Hok Hparse Haccess Hrefresh.
  exists (signed username password access refresh w).
  split; [by eapply login_run |]. split; [apply signed_trace |].
  split; [reflexivity |]. split; [apply signed_access_token |].
  unfold signed. cbv zeta. destruct (truthy refresh); cbn; split.
  - by rewrite lookup_insert_eq.
  - intros k Ha Hr. by rewrite !lookup_insert_ne.
  - by rewrite lookup_insert_ne.
  - intros k Ha Hr. by rewrite lookup_insert_ne.
Qed.

(** X12: when the answer is an object that names no access token, the
    login still succeeds and stores the text "undefined" as the access
    token, so the headers computed afterwards carry "Bearer undefined". *)
Theorem login_without_access_token username password w r data refresh :
  net (count is_fetch (trace w)) = Resolved r → ok r = true →
  JSON_parse (body r) = Ok data →
  get_prop data "access_token" = Ok VUndef →
  get_prop data "refresh_token" = Ok refresh →
  ∃ w', login username password w = (Ok data, w') ∧
        localStorage w' !! "access_token" = Some "undefined" ∧
        VObj (getHeaders w') = bearer_headers "undefined".
Proof.
  intros Hn Hok Hparse Haccess Hrefresh.
  exists (signed username password VUndef refresh w).
  split; [by eapply login_run |].
  pose proof (signed_access_token username password VUndef refresh w) as Hstored.
  split; [exact Hstored |].
  by rewrite (getHeaders_token _ "undefined" Hstored).
Qed.

Lemma getUserProfile_first_call w :
  ∃ rest, trace (snd (getUserProfile w)) =
          (trace w ++ EvFetch (getURL "/users/me") (make_config ∅ w) :: rest)%list.
Proof.
  destruct (makeRequest_first_call endpoints_user_profile ∅ 1 w) as [rest Hfirst].
  exists rest. unfold getUserProfile, bind, response_json, of_result.
  destruct (makeRequest _ _ 1 w) as [[response | error] w1]; cbn [snd] in *;
    [destruct (JSON_parse (body response)) |]; exact Hfirst.
Qed.

(** X13: after a login that was answered with a non-empty access token,
    asking for the user's profile first makes a call to "/users/me"
    that carries this token as bearer and the JSON content type, and no
    other option. *)
Theorem login_then_profile_carries_token username password w r data access refresh :
  net (count is_fetch (trace w)) = Resolved r → ok r = true →
  JSON_parse (body r) = Ok data →
  get_prop data "access_token" = Ok access →
  get_prop data "refresh_token" = Ok refresh →
  to_string access ≠ "" →
  ∃ rest,
    trace (snd ((login username password ;;; getUserProfile) w)) =
      (trace w ++
         EvFetch (getURL "/token") (login_config username password) ::
         EvFetch (getURL "/users/me")
           {[ "headers" := bearer_headers (to_string access) ]} :: rest)%list.
Proof.
  intros Hn Hok Hparse Haccess Hrefresh Hne.
  unfold bind at 1.
  rewrite (login_run username password w r data access refresh Hn Hok Hparse Haccess Hrefresh).
  set (w1 := signed username password access refresh w).
  destruct (getUserProfile_first_call w1) as [rest Hfirst]. exists rest.
  rewrite Hfirst. subst w1. rewrite signed_trace, <- app_assoc. cbn [app].
  do 3 f_equal. unfold make_config.
  rewrite (getHeaders_token _ (to_string access)
             (signed_access_token username password access refresh w) Hne).
  by rewrite (left_id_L ∅ (∪)).
Qed.
End LoginFacts.

Section LoginExamples.
Import APIConfig APIClient Reference.
#[local] Existing Instance engine.

Lemma login_stores_tokens_witness :
  let out := @login engine (answers [Resolved tokens_body]) "ravi" "secret" signed_in in
  localStorage (snd out) !! "access_token" = Some "abc" ∧
  localStorage (snd out) !! "refresh_token" = Some "xyz".
Proof.
  intros out.
  destruct (@login_stores_tokens engine (answers [Resolved tokens_body]) "ravi" "secret"
              signed_in tokens_body
              (VObj [("access_token", VStr "abc"); ("refresh_token", VStr "xyz")])
              (VStr "abc") (VStr "xyz"))
    as (w' & Hrun & _ & _ & Haccess & Hrefresh & _);
    [reflexivity | reflexivity | vm_compute; reflexivity | reflexivity | reflexivity |].
  subst out. rewrite Hrun. split; [exact Haccess | exact Hrefresh].
Defined.

Lemma login_without_access_token_witness :
  let out := @login engine (answers [Resolved detail_body]) "ravi" "secret" (fresh ∅) in
  localStorage (snd out) !! "access_token" = Some "undefined".
Proof.
  intros out.
  destruct (@login_without_access_token engine (answers [Resolved detail_body])
              "ravi" "secret" (fresh ∅) detail_body
              (VObj [("detail", VStr "welcome")]) VUndef)
    as (w' & Hrun & Haccess & _);
    [reflexivity | reflexivity | vm_compute; reflexivity | reflexivity | reflexivity |].
  subst out. rewrite Hrun. exact Haccess.
Defined.

Lemma login_then_profile_carries_token_witness :
  ∃ rest,
    trace (snd ((@login engine (answers [Resolved tokens_body; Resolved profile_body])
                   "ravi" "secret" ;;;
                 @getUserProfile engine (answers [Resolved tokens_body; Resolved profile_body]))
                  (fresh ∅))) =
      ([] ++
         EvFetch "http://localhost:8005/token" (login_config "ravi" "secret") ::
         EvFetch "http://localhost:8005/users/me" {[ "headers" := bearer_headers "abc" ]} ::
         rest)%list.
Proof.
  apply (@login_then_profile_carries_token engine
           (answers [Resolved tokens_body; Resolved profile_body]) "ravi" "secret"
           (fresh ∅) tokens_body
           (VObj [("access_token", VStr "abc"); ("refresh_token", VStr "xyz")])
           (VStr "abc") (VStr "xyz"));
    [reflexivity | reflexivity | vm_compute; reflexivity | reflexivity | reflexivity
     | discriminate].
Defined.
End LoginExamples.

(** ** The stream loops *)



Lemma split_on_pieces sep s : Forall (fun piece => mentions sep piece = false) (split_on sep s).
Proof.
  induction s as [| c rest IH]; cbn [split_on]; [by repeat constructor |].
  destruct (Ascii.eqb c sep) eqn:Hc; [by constructor |].
  destruct (split_on sep rest) as [| first others]; [by repeat constructor; cbn; rewrite Hc |].
  apply Forall_cons in IH as [Hfirst Hothers].
  constructor; [| done]. cbn. by rewrite Hc, Hfirst.
Qed.

Section AnswerFacts.
Context `{JSEngine}.
Import Query.

Lemma get_prop_defined data k v k' :
  get_prop data k = Ok v → ∃ v', get_prop data k' = Ok v'.
Proof. destruct data; cbn; intros Hv; try done; by eexists. Qed.

Lemma lines_of_one_line chunk : Forall one_line (lines_of chunk).
Proof.
  apply Forall_forall. intros line Hin. unfold lines_of in Hin.
  apply list_elem_of_filter in Hin as [Hkept Hin]. split.
  - pose proof (split_on_pieces newline chunk) as Hall.
    rewrite Forall_forall in Hall. by apply Hall.
  - intros Hblank. rewrite Hblank in Hkept. done.
Qed.

Lemma appends_bind {A B} (m : ST state A) (k : A → ST state B) :
  appends m → (∀ a, appends (k a)) → appends (bind m k).
Proof.
  intros Hm Hk d. unfold bind. destruct (Hm d) as [more Hmore].
  destruct (m d) as [[a | e] d']; cbn [snd] in *; [| by exists more].
  destruct (Hk a d') as [more' Hmore']. exists (more ++ more').
  by rewrite Hmore', Hmore, string_app_assoc.
Qed.

Lemma appends_try_catch {A} (m : ST state A) handler :
  appends m → (∀ e, appends (handler e)) → appends (try_catch m handler).
Proof.
  intros Hm Hh d. unfold try_catch. destruct (Hm d) as [more Hmore].
  destruct (m d) as [[a | e] d']; cbn [snd] in *; [by exists more |].
  destruct (Hh e d') as [more' Hmore']. exists (more ++ more').
  by rewrite Hmore', Hmore, string_app_assoc.
Qed.

Lemma appends_keeps {A} (m : ST state A) :
  (∀ d, locals (snd (m d)) = locals d) → appends m.
Proof. intros Hm d. exists "". by rewrite Hm, string_app_nil_r. Qed.

Lemma appends_ret {A} (a : A) : appends (ret a : ST state A).
Proof. by apply appends_keeps. Qed.

Lemma appends_throw {A} e : appends (throw e : ST state A).
Proof. by apply appends_keeps. Qed.

Lemma appends_of_result {A} (r : result A) : appends (of_result r : ST state A).
Proof. by apply appends_keeps. Qed.

Lemma appends_field data k : appends (field data k : ST state jsval).
Proof. by apply appends_keeps. Qed.

Lemma appends_show e : appends (show e : ST state unit).
Proof. by apply appends_keeps. Qed.

Lemma appends_console_error label e : appends (console_error label e : ST state unit).
Proof. by apply appends_keeps. Qed.

Lemma appends_get_locals : appends (get_locals : ST state vars).
Proof. by apply appends_keeps. Qed.

Lemma appends_parse_line line : appends (parse_line line : ST state jsval).
Proof. by apply appends_keeps. Qed.

Lemma appends_set_lang lang :
  appends (set_locals (fun v => Vars (fullAnswer v) lang) : ST state unit).
Proof. intros d. exists "". cbn. by rewrite string_app_nil_r. Qed.

Lemma appends_set_answer more :
  appends (set_locals (fun v => Vars (fullAnswer v ++ more) (originalLang v))
             : ST state unit).
Proof. intros d. by exists more. Qed.

Lemma appends_when b (m : ST state unit) : appends m → appends (when b m).
Proof. intros Hm. destruct b; [done | apply appends_ret]. Qed.
End AnswerFacts.

Create HintDb answer.
#[export] Hint Resolve
  appends_ret appends_throw appends_of_result appends_field appends_show
  appends_console_error appends_get_locals appends_parse_line
  appends_set_lang appends_set_answer : answer.

Ltac grow :=
  repeat first
    [ apply appends_bind; [| intros ?]
    | apply appends_try_catch; [| intros ?]
    | apply appends_when
    | match goal with
      | |- appends (if ?b then _ else _) => destruct b
      end
    | solve [auto with answer] ].

Section MoreQueryFacts.
Context `{JSEngine}.
Import Query.

Lemma query_step_appends line : appends (step line).
Proof. unfold step, line_body, dispatch. grow. Qed.

Lemma query_for_lines_appends lines : appends (for_lines lines).
Proof.
  induction lines as [| line rest IH]; cbn [for_lines]; [apply appends_ret |].
  apply appends_bind; [apply query_step_appends | by intros _].
Qed.



(** X14: nothing a stream contains reaches the outer [catch] of the
    query form: error envelopes, malformed lines and TypeErrors raised
    while an envelope is handled all end in the per-line [catch], so the
    handler runs the loop to the end of the stream and "Failed to get
    answer" is not shown for it. *)
Theorem query_outer_catch_is_not_reached chunks d :
  fst (read_loop chunks d) = Ok tt ∧
  handle_stream chunks d = read_loop chunks d.
Proof.
  pose proof (query_read_loop_never_throws chunks d) as Hok.
  split; [exact Hok |]. unfold handle_stream, try_catch.
  destruct (read_loop chunks d) as [[[] | e] d']; [done | discriminate].
Qed.

(** X15: the answer under construction only grows: whatever the stream
    holds, [fullAnswer] at the end of the stream starts with what it was
    before. *)
Theorem query_answer_only_grows chunks d :
  ∃ more,
    fullAnswer (locals (snd (read_loop chunks d))) = fullAnswer (locals d) ++ more.
Proof. rewrite query_read_loop_lines. apply query_for_lines_appends. Qed.

Lemma query_step_brings line text d :
  brings line text →
  fst (step line d) = Ok tt ∧
  fullAnswer (locals (snd (step line d))) = fullAnswer (locals d) ++ text ∧
  console (snd (step line d)) = console d.
Proof.
  intros (data & error & status & Hparse & Herror & Hfalsy & Hstatus & Hgoes & Hpiece).
  destruct (get_prop_defined data "error" error "response_lang" Herror) as [lang Hlang].
  unfold step, line_body, try_catch, bind at 1, parse_line. rewrite Hparse.
  unfold dispatch, field. run. rewrite Herror. cbn [fst snd]. rewrite Hfalsy.
  rewrite Hlang. destruct (truthy lang); cbn [fst snd];
    rewrite Hstatus; destruct (truthy status); cbn [fst snd];
    rewrite Hpiece; cbn [truthy]; destruct (String.eqb_spec text "") as [-> | Hne];
    cbn [negb fst snd]; rewrite Hgoes; cbn;
    repeat split; by rewrite ?string_app_nil_r.
Qed.

Lemma query_for_lines_brings lines texts d :
  Forall2 brings lines texts →
  fst (for_lines lines d) = Ok tt ∧
  fullAnswer (locals (snd (for_lines lines d))) =
    fullAnswer (locals d) ++ foldr String.append "" texts ∧
  console (snd (for_lines lines d)) = console d.
Proof.
  intros Hall. revert d.
  induction Hall as [| line text lines texts Hline _ IH]; intros d.
  - cbn. by rewrite string_app_nil_r.
  - cbn [for_lines foldr]. unfold bind.
    destruct (query_step_brings line text d Hline) as (Hok & Hanswer & Hconsole).
    destruct (step line d) as [[[] | e] d']; [| discriminate]. cbn [fst snd] in *.
    destruct (IH d') as (Hok' & Hanswer' & Hconsole').
    split; [exact Hok' |]. split.
    + by rewrite Hanswer', Hanswer, string_app_assoc.
    + by rewrite Hconsole', Hconsole.
Qed.

(** X16: when every line of the stream brings a piece of the answer,
    the stream ends with [fullAnswer] extended by the pieces in the order
    of the stream, wherever the chunks were cut between lines, and with
    nothing logged to the console. *)
Theorem query_pieces_are_concatenated chunks texts d :
  Forall2 brings (flat_map (fun value => lines_of (utf8_decode value)) chunks) texts →
  fst (read_loop chunks d) = Ok tt ∧
  fullAnswer (locals (snd (read_loop chunks d))) =
    fullAnswer (locals d) ++ foldr String.append "" texts ∧
  console (snd (read_loop chunks d)) = console d.
Proof. intros Hall. rewrite query_read_loop_lines. by apply query_for_lines_brings. Qed.

(** X17: for the query form only the lines count, not the chunks they
    came in: two streams with the same non-blank lines end alike. *)
Theorem query_chunking_is_irrelevant chunks chunks' d :
  flat_map (fun value => lines_of (utf8_decode value)) chunks =
  flat_map (fun value => lines_of (utf8_decode value)) chunks' →
  read_loop chunks d = read_loop chunks' d.
Proof. intros Hsame. by rewrite !query_read_loop_lines, Hsame. Qed.
End MoreQueryFacts.

Section MoreChatFacts.
Context `{JSEngine}.
Import Chat.

(** X18: in the chat window an envelope with a truthy [response] and
    the status "complete" replaces [botResponse] by this response instead
    of appending, shows it in the bot's message (in a new one when no
    piece was shown before, and the container exists), and ends the
    handling of the chunk: the lines after it are not parsed.  The new
    message is not kept in [botMessageElement]. *)
Theorem chat_complete_replaces_and_breaks line rest data piece response status d :
  JSON_parse line = Ok data →
  get_prop data "response_chunk" = Ok piece → truthy piece = false →
  get_prop data "response" = Ok response → truthy response = true →
  get_prop data "status" = Ok status → strict_eq_str status "complete" = true →
  ∃ d', for_lines (line :: rest) d = (Ok tt, d') ∧
        botResponse (locals d') = response ∧
        botMessageElement (locals d') = botMessageElement (locals d) ∧
        parsed d' = (parsed d ++ [line])%list ∧
        console d' = console d ∧
        ui d' =
          (ui d ++ UiHideTyping ::
             (if botMessageElement (locals d)
              then [UiUpdateMessage (to_string response)]
              else if has_chat_messages (locals d)
                   then [UiAddMessage "bot" (to_string response)]
                   else []))%list.
Proof.
  intros Hparse Hpiece Hfalsy Hresponse Htruthy Hstatus Hcomplete.
  cbn [for_lines]. unfold bind at 1, step, try_catch, line_body, bind at 1, parse_line.
  rewrite Hparse. unfold dispatch, field, addChatMessage, updateBotMessage. run.
  rewrite Hpiece. cbn [fst snd]. rewrite Hfalsy, Hresponse. cbn [fst snd].
  rewrite Hstatus. cbn [fst snd]. rewrite Htruthy, Hcomplete. cbn [andb].
  unfold show, get_locals, set_locals. run. cbn [locals ui console parsed].
  destruct (botMessageElement (locals d)) eqn:Helement; cbn;
    [| destruct (has_chat_messages (locals d)) eqn:Hcontainer; cbn];
    eexists; (split; [reflexivity |]); cbn; rewrite ?Helement;
    repeat split; by rewrite <- ?app_assoc.
Qed.

(** X19: when the page has no [#chat-messages] container, a piece of
    the answer is still appended to [botResponse], but updating the
    message that could not be created raises a TypeError, which the
    per-line [catch] logs; the loop goes on with the next line. *)
Theorem chat_piece_without_container line data piece d :
  JSON_parse line = Ok data →
  get_prop data "response_chunk" = Ok piece → truthy piece = true →
  botMessageElement (locals d) = false → has_chat_messages (locals d) = false →
  ∃ d', step line d = (Ok false, d') ∧
        botResponse (locals d') = js_plus (botResponse (locals d)) piece ∧
        botMessageElement (locals d') = false ∧
        ui d' = (ui d ++ [UiHideTyping])%list ∧
        console d' =
          (console d ++ [("Error parsing response chunk:",
                          type_error VNull "querySelector")])%list.
Proof.
  intros Hparse Hpiece Htruthy Helement Hcontainer.
  unfold step, try_catch, line_body, bind at 1, parse_line.
  rewrite Hparse. unfold dispatch, field, addChatMessage, updateBotMessage. run.
  rewrite Hpiece. cbn [fst snd]. rewrite Htruthy.
  unfold show, get_locals, set_locals, console_error. run. cbn [locals ui console parsed].
  rewrite Helement. cbn. rewrite Hcontainer. cbn.
  eexists. split; [reflexivity |]. cbn. by repeat split.
Qed.
End MoreChatFacts.

Section MoreStreamFacts.
Context `{JSEngine}.

(** X20: [JSON.parse] is only ever handed texts that lie on one line and
    are not blank, in both loops and whatever the reader delivers. *)
Theorem parsed_texts_are_single_lines (chunks : list (list Byte.byte)) has_chat_messages :
  Forall one_line (parsed (snd (Query.read_loop chunks Query.initial))) ∧
  Forall one_line (parsed (snd (Chat.read_loop chunks (Chat.initial has_chat_messages)))).
Proof.
  split.
  - rewrite query_read_loop_parsed. cbn [parsed Query.initial app].
    induction chunks as [| value rest IH]; [constructor |].
    cbn [flat_map]. apply Forall_app. split; [apply lines_of_one_line | exact IH].
  - destruct (chat_read_loop_parsed chunks (Chat.initial has_chat_messages))
      as (per_chunk & Hall & ->).
    cbn [parsed Chat.initial app]. clear -Hall.
    induction Hall as [| done_ value per_chunk chunks [rest_ Hdone] _ IH]; [constructor |].
    cbn [concat]. apply Forall_app. split; [| exact IH].
    pose proof (lines_of_one_line (utf8_decode value)) as Hlines.
    rewrite Hdone in Hlines. by apply Forall_app in Hlines as [? _].
Qed.
End MoreStreamFacts.

Section MoreStreamExamples.
Import Reference.
#[local] Existing Instance engine.

Lemma query_pieces_are_concatenated_witness :
  Query.fullAnswer (locals (snd (@Query.read_loop engine pieces_together Query.initial)))
    = "Hello world".
Proof.
  destruct (@query_pieces_are_concatenated engine pieces_together ["Hello "; "world"]
              Query.initial) as (_ & Hanswer & _).
  - assert (flat_map (fun value => @lines_of engine (@utf8_decode engine value))
              pieces_together = [piece_hello; piece_world]) as ->
      by (vm_compute; reflexivity).
    constructor; [| constructor; [| constructor]].
    + exists (VObj [("generated_answer_chunk", VStr "Hello ")]), VUndef, VUndef.
      repeat split; vm_compute; reflexivity.
    + exists (VObj [("generated_answer_chunk", VStr "world")]), VUndef, VUndef.
      repeat split; vm_compute; reflexivity.
  - rewrite Hanswer. reflexivity.
Defined.

Lemma query_chunking_is_irrelevant_witness :
  @Query.read_loop engine pieces_together Query.initial =
  @Query.read_loop engine pieces_apart Query.initial.
Proof.
  apply (@query_chunking_is_irrelevant engine pieces_together pieces_apart Query.initial).
  vm_compute; reflexivity.
Defined.

Lemma chat_complete_replaces_and_breaks_witness :
  ∃ d', @Chat.for_lines engine [completion; world_] (Chat.initial true) = (Ok tt, d') ∧
        Chat.botResponse (locals d') = VStr "Done" ∧
        parsed d' = [completion] ∧
        ui d' = [UiHideTyping; UiAddMessage "bot" "Done"].
Proof.
  destruct (@chat_complete_replaces_and_breaks engine completion [world_]
              (VObj [("response", VStr "Done"); ("status", VStr "complete")])
              VUndef (VStr "Done") (VStr "complete") (Chat.initial true))
    as (d' & Hrun & Hresponse & _ & Hparsed & _ & Hui);
    [vm_compute; reflexivity | reflexivity | reflexivity | reflexivity | reflexivity
     | reflexivity | reflexivity |].
  exists d'. split; [exact Hrun |]. split; [exact Hresponse |].
  split; [exact Hparsed | exact Hui].
Defined.

Lemma chat_piece_without_container_witness :
  ∃ d', @Chat.step engine hello (Chat.initial false) = (Ok false, d') ∧
        Chat.botResponse (locals d') = VStr "Hello " ∧
        ui d' = [UiHideTyping] ∧
        console d' = [("Error parsing response chunk:",
                       @type_error engine VNull "querySelector")].
Proof.
  destruct (@chat_piece_without_container engine hello
              (VObj [("response_chunk", VStr "Hello ")]) (VStr "Hello ")
              (Chat.initial false))
    as (d' & Hrun & Hresponse & _ & Hui & Hconsole);
    [vm_compute; reflexivity | reflexivity | reflexivity | reflexivity | reflexivity |].
  exists d'. split; [exact Hrun |]. split; [exact Hresponse |].
  split; [exact Hui | exact Hconsole].
Defined.
End MoreStreamExamples.

(** ** The page's sync queue ([script.js]) *)

Section SyncFacts.
Context `{JSEngine}.

Lemma without_index_at {A} (pre : list A) x rest :
  AppQueue.without_index (length pre) (pre ++ x :: rest) = (pre ++ rest)%list.
Proof. induction pre as [| y pre IH]; [done |]. cbn. by rewrite IH. Qed.

Lemma without_index_beyond {A} index (queue : list A) :
  (length queue ≤ index)%nat → AppQueue.without_index index queue = queue.
Proof.
  revert index. induction queue as [| x queue IH]; intros index Hlen;
    [by destruct index |].
  destruct index as [| index]; cbn in *; [lia |]. rewrite IH; [done | lia].
Qed.

(** What the timer of a syncable item does. *)
Lemma timer_syncable item index a :
  syncable item →
  let queue := AppQueue.without_index index (AppQueue.offlineQueue a) in
  let a' := snd (AppQueue.timer item index a) in
  AppQueue.offlineQueue a' = queue ∧
  AppQueue.saved_queue a' = Some queue ∧
  AppQueue.successes a' =
    (AppQueue.successes a ++
       if (length queue =? 0)%nat then ["All data synced successfully!"] else [])%list.
Proof.
  intros (type & data & id & Htype & Hdata & Hid). cbv zeta.
  unfold AppQueue.timer, AppQueue.console_log, AppQueue.saveOfflineQueue,
    AppQueue.updateSyncStatus, AppQueue.showSuccess.
  run. rewrite Htype, Hdata, Hid. cbn.
  destruct (AppQueue.sync_text a); cbn;
    destruct (length (AppQueue.without_index index (AppQueue.offlineQueue a)) =? 0)%nat;
    cbn; by rewrite ?app_nil_r.
Qed.

(** Timers that find the queue shorter than their index change nothing. *)
Lemma fire_beyond items index a :
  Forall syncable items →
  AppQueue.offlineQueue a ≠ [] →
  (length (AppQueue.offlineQueue a) ≤ index)%nat →
  AppQueue.offlineQueue (AppQueue.fire items index a) = AppQueue.offlineQueue a ∧
  AppQueue.successes (AppQueue.fire items index a) = AppQueue.successes a ∧
  (AppQueue.saved_queue a = Some (AppQueue.offlineQueue a) →
   AppQueue.saved_queue (AppQueue.fire items index a) = Some (AppQueue.offlineQueue a)).
Proof.
  intros Hitems. revert index a.
  induction Hitems as [| item items Hitem _ IH]; intros index a Hne Hlen; [done |].
  cbn [AppQueue.fire].
  destruct (timer_syncable item index a Hitem) as (Hqueue & Hsaved & Hsuccesses).
  rewrite (without_index_beyond index _ Hlen) in Hqueue, Hsaved, Hsuccesses.
  assert ((length (AppQueue.offlineQueue a) =? 0)%nat = false) as Hlen0.
  { apply Nat.eqb_neq. by destruct (AppQueue.offlineQueue a). }
  rewrite Hlen0, app_nil_r in Hsuccesses.
  destruct (IH (S index) (snd (AppQueue.timer item index a))) as (Hq & Hs & Hsv).
  - by rewrite Hqueue.
  - rewrite Hqueue. lia.
  - rewrite Hq, Hs, Hqueue, Hsuccesses. repeat split; [].
    intros _. rewrite <- Hqueue. apply Hsv. by rewrite Hsaved, Hqueue.
Qed.

(** The timers from the [index]-th on, when the [index] first items of
    the queue are those that were skipped so far. *)
Lemma fire_from items index a pre rest :
  Forall syncable items →
  AppQueue.offlineQueue a = (pre ++ rest)%list →
  length pre = index → pre ≠ [] →
  (length rest ≤ 2 * length items)%nat →
  AppQueue.saved_queue a = Some (AppQueue.offlineQueue a) →
  let a' := AppQueue.fire items index a in
  AppQueue.offlineQueue a' = (pre ++ every_second rest)%list ∧
  AppQueue.successes a' = AppQueue.successes a ∧
  AppQueue.saved_queue a' = Some (AppQueue.offlineQueue a').
Proof.
  intros Hitems. revert index a pre rest.
  induction Hitems as [| item items Hitem Hitems IH];
    intros index a pre rest Hqueue Hpre Hne Hlen Hsaved; cbv zeta.
  - cbn in Hlen. destruct rest; [| cbn in Hlen; lia].
    cbn. by rewrite Hqueue, Hsaved, Hqueue.
  - cbn [AppQueue.fire].
    destruct (timer_syncable item index a Hitem) as (Hq1 & Hsaved1 & Hsuccesses1).
    set (a1 := snd (AppQueue.timer item index a)) in *.
    assert (∀ queue : list jsval, (pre ++ queue)%list ≠ []) as Hfilled.
    { intros queue. by destruct pre. }
    destruct rest as [| x [| y rest]].
    + rewrite app_nil_r in Hqueue.
      rewrite Hqueue, without_index_beyond in Hq1, Hsaved1, Hsuccesses1 by lia.
      assert ((length pre =? 0)%nat = false) as Hlen0
          by (apply Nat.eqb_neq; by destruct pre).
      rewrite Hlen0, app_nil_r in Hsuccesses1.
      destruct (fire_beyond items (S index) a1 Hitems) as (Hq & Hs & Hsv).
      * by rewrite Hq1.
      * rewrite Hq1. lia.
      * cbn [every_second]. rewrite app_nil_r, Hq, Hs, Hq1, Hsuccesses1.
        repeat split; []. rewrite <- Hq1. apply Hsv. by rewrite Hsaved1, Hq1.
    + rewrite Hqueue, <- Hpre, without_index_at, app_nil_r in Hq1, Hsaved1, Hsuccesses1.
      assert ((length pre =? 0)%nat = false) as Hlen0
          by (apply Nat.eqb_neq; by destruct pre).
      rewrite Hlen0, app_nil_r in Hsuccesses1.
      destruct (fire_beyond items (S index) a1 Hitems) as (Hq & Hs & Hsv).
      * by rewrite Hq1.
      * rewrite Hq1. lia.
      * cbn [every_second]. rewrite app_nil_r, Hq, Hs, Hq1, Hsuccesses1.
        repeat split; []. rewrite <- Hq1. apply Hsv. by rewrite Hsaved1, Hq1.
    + rewrite Hqueue, <- Hpre, without_index_at in Hq1, Hsaved1, Hsuccesses1.
      assert ((length (pre ++ y :: rest) =? 0)%nat = false) as Hlen0.
      { apply Nat.eqb_neq. rewrite length_app. cbn. lia. }
      rewrite Hlen0, app_nil_r in Hsuccesses1.
      destruct (IH (S index) a1 (pre ++ [y])%list rest) as (Hq & Hs & Hsv).
      * by rewrite Hq1, <- app_assoc.
      * rewrite length_app. cbn. lia.
      * by destruct pre.
      * cbn in Hlen. lia.
      * by rewrite Hsaved1, Hq1.
      * cbn [every_second]. rewrite Hq, Hs, Hsuccesses1, Hsv, Hq, <- app_assoc.
        by repeat split.
Qed.

(** X21: a sync pass of the page over a queue of syncable items, run
    until its last timer has gone off, does not empty the queue: each
    timer removes the item that stands at its own index in the queue as
    the earlier timers left it, so every second item stays, in memory
    and in the store; "All data synced successfully!" is shown only when
    the queue held exactly one item. *)
Theorem sync_pass_keeps_every_second_item a :
  Forall syncable (AppQueue.offlineQueue a) →
  let a' := AppQueue.processOfflineQueue a in
  AppQueue.offlineQueue a' = every_second (AppQueue.offlineQueue a) ∧
  (AppQueue.offlineQueue a ≠ [] →
   AppQueue.saved_queue a' = Some (every_second (AppQueue.offlineQueue a))) ∧
  AppQueue.successes a' =
    (AppQueue.successes a ++
       if (length (AppQueue.offlineQueue a) =? 1)%nat
       then ["All data synced successfully!"] else [])%list.
Proof.
  intros Hitems. cbv zeta. unfold AppQueue.processOfflineQueue.
  destruct (AppQueue.offlineQueue a) as [| x rest] eqn:Hqueue.
  { cbn. by rewrite Hqueue, app_nil_r. }
  cbn [length Nat.eqb]. cbv zeta.
  set (a0 := snd (AppQueue.console_log _ a)).
  assert (AppQueue.offlineQueue a0 = x :: rest) as Hq0 by (by rewrite <- Hqueue).
  assert (AppQueue.successes a0 = AppQueue.successes a) as Hs0 by done.
  clearbody a0. cbn [AppQueue.fire].
  apply Forall_cons in Hitems as [Hitem Hitems].
  destruct (timer_syncable x 0 a0 Hitem) as (Hq1 & Hsaved1 & Hsuccesses1).
  set (a1 := snd (AppQueue.timer x 0 a0)) in *.
  rewrite Hq0 in Hq1, Hsaved1, Hsuccesses1. cbn [AppQueue.without_index] in *.
  destruct rest as [| y rest].
  - cbn. rewrite Hq1, Hsaved1, Hsuccesses1, Hs0. by repeat split.
  - destruct (fire_from (y :: rest) 1 a1 [y] rest Hitems) as (Hq & Hs & Hsv).
    + by rewrite Hq1.
    + done.
    + done.
    + cbn. lia.
    + by rewrite Hsaved1, Hq1.
    + cbn [every_second length Nat.eqb]. rewrite Hsv, Hq, Hs, Hsuccesses1, Hs0.
      cbn. by destruct rest.
Qed.
End SyncFacts.

Section SyncExamples.
Import Reference.
#[local] Existing Instance engine.

Lemma sync_pass_keeps_every_second_item_witness :
  AppQueue.offlineQueue (@AppQueue.processOfflineQueue engine four_waiting) =
    [detection "b"; detection "d"] ∧
  AppQueue.successes (@AppQueue.processOfflineQueue engine four_waiting) = [].
Proof.
  destruct (@sync_pass_keeps_every_second_item engine four_waiting)
    as (Hqueue & _ & Hsuccesses).
  - repeat constructor;
      by eexists (VStr "detection"), (VObj [("id", VStr _)]), (VStr _).
  - split; [exact Hqueue | exact Hsuccesses].
Defined.
End SyncExamples.
